(** * Job description parser: a shallow embedding of [job_parser.py] and
    [parse_job.py], and the properties of its extraction routines.

    Text is a [string] whose characters are read as the code points 0..255.
    The classification tables of [Str] and the matcher of [Re] follow
    CPython's [str] methods and its [re] module on that range.  A function
    that can raise returns a [result]; the iteration order of a Python set
    is a parameter of the functions that depend on it. *)

From Stdlib Require Import Bool Arith NArith List String Ascii Lia.
From Stdlib Require Import ListSet Permutation DecimalString Decimal DecimalPos.
Import ListNotations.
Open Scope string_scope.
Open Scope nat_scope.

(** ** Exceptions *)

Inductive exn := IndexError | ValueError.

Inductive result (A : Type) :=
| Ok (a : A)
| Raise (e : exn).
Arguments Ok {A} a.
Arguments Raise {A} e.

Definition bind {A B} (x : result A) (f : A -> result B) : result B :=
  match x with
  | Ok a => f a
  | Raise e => Raise e
  end.

Notation "x <- c1 ;; c2" := (bind c1 (fun x => c2))
  (at level 61, c1 at next level, right associativity).

(** ** Python's [str] methods *)

Module Str.

Definition LF : ascii := ascii_of_nat 10.
Definition CR : ascii := ascii_of_nat 13.

Definition between (lo hi n : nat) : bool := (lo <=? n) && (n <=? hi).

(** [str.isspace] on one character, which is also what [str.strip] removes
    and what [\s] matches. *)
Definition isspace (c : ascii) : bool :=
  let n := nat_of_ascii c in
  between 9 13 n || between 28 32 n || (n =? 133) || (n =? 160).

(** The decimal digits, [\d]. *)
Definition isdecimal (c : ascii) : bool := between 48 57 (nat_of_ascii c).

Definition isupper (c : ascii) : bool :=
  let n := nat_of_ascii c in
  between 65 90 n || (between 192 222 n && negb (n =? 215)).

(** The characters for which [str.isalnum] holds. *)
Definition isalnum (c : ascii) : bool :=
  let n := nat_of_ascii c in
  between 48 57 n || between 65 90 n || between 97 122 n
  || (n =? 170) || (n =? 178) || (n =? 179) || (n =? 181)
  || between 185 186 n || between 188 190 n
  || between 192 214 n || between 216 246 n || between 248 255 n.

(** The word characters of [\w] and [\b]. *)
Definition isword (c : ascii) : bool := isalnum c || (nat_of_ascii c =? 95).

Definition lower_char (c : ascii) : ascii :=
  if isupper c then ascii_of_nat (nat_of_ascii c + 32) else c.

(** Upper-casing, for the characters whose capital is again below 256.  It
    is used on the keyword tables, which are ASCII. *)
Definition upper_char (c : ascii) : ascii :=
  let n := nat_of_ascii c in
  if between 97 122 n || (between 224 254 n && negb (n =? 247))
  then ascii_of_nat (n - 32) else c.

Definition iscased (c : ascii) : bool :=
  negb (Ascii.eqb (lower_char c) c) || negb (Ascii.eqb (upper_char c) c).

Fixpoint lower (s : string) : string :=
  match s with
  | EmptyString => EmptyString
  | String c s' => String (lower_char c) (lower s')
  end.

(** [str.title]: the first cased character of every run is upper-cased, the
    others are lower-cased. *)
Fixpoint title_from (previous_is_cased : bool) (s : string) : string :=
  match s with
  | EmptyString => EmptyString
  | String c s' =>
      String (if previous_is_cased then lower_char c else upper_char c)
             (title_from (iscased c) s')
  end.

Definition title (s : string) : string := title_from false s.

Fixpoint lstrip (s : string) : string :=
  match s with
  | EmptyString => EmptyString
  | String c s' => if isspace c then lstrip s' else s
  end.

Fixpoint rstrip (s : string) : string :=
  match s with
  | EmptyString => EmptyString
  | String c s' =>
      match rstrip s' with
      | EmptyString => if isspace c then EmptyString else String c EmptyString
      | r => String c r
      end
  end.

Definition strip (s : string) : string := rstrip (lstrip s).

(** [needle in hay]. *)
Fixpoint contains (needle hay : string) : bool :=
  prefix needle hay ||
  match hay with
  | EmptyString => false
  | String _ hay' => contains needle hay'
  end.

(** [s.split(sep)] for a one-character separator. *)
Fixpoint split (sep : ascii) (s : string) : list string :=
  match s with
  | EmptyString => [EmptyString]
  | String c s' =>
      if Ascii.eqb c sep then EmptyString :: split sep s'
      else match split sep s' with
           | h :: t => String c h :: t
           | [] => [String c EmptyString]
           end
  end.

(** [sep.join(parts)]. *)
Fixpoint join (sep : string) (parts : list string) : string :=
  match parts with
  | [] => EmptyString
  | [p] => p
  | p :: ps => p ++ sep ++ join sep ps
  end.

(** [s[:n]] *)
Fixpoint take (n : nat) (s : string) : string :=
  match n, s with
  | S n', String c s' => String c (take n' s')
  | _, _ => EmptyString
  end.

(** [s[n:]] *)
Fixpoint drop (n : nat) (s : string) : string :=
  match n, s with
  | S n', String _ s' => drop n' s'
  | _, _ => s
  end.


(** [x.isdigit()] on a string: non-empty, digits only.  The superscript
    digits count as digits for Python. *)
Definition isdigit_char (c : ascii) : bool :=
  let n := nat_of_ascii c in
  isdecimal c || between 178 179 n || (n =? 185).

Fixpoint all_chars (p : ascii -> bool) (s : string) : bool :=
  match s with
  | EmptyString => true
  | String c s' => p c && all_chars p s'
  end.

Definition isdigit (s : string) : bool :=
  negb (s =? "")%string && all_chars isdigit_char s.

(** [sys.get_int_max_str_digits()], at its default: the largest number of
    digits [int] converts (CPython 3.11, and the later releases of 3.7 to
    3.10). *)
Definition int_max_str_digits : nat := 4300.

(** [int(x)] on a string of digits: the decimal digits are read from the
    left; any other character (a superscript digit too) is a [ValueError],
    and so are the empty string and a string of more than
    [int_max_str_digits] digits. *)
Fixpoint int_from (acc : N) (s : string) : N :=
  match s with
  | EmptyString => acc
  | String c s' => int_from (10 * acc + (N_of_ascii c - 48))%N s'
  end.

Definition int (s : string) : result N :=
  if negb (s =? "")%string && all_chars isdecimal s
  then if int_max_str_digits <? String.length s
       then Raise ValueError
       else Ok (int_from 0%N s)
  else Raise ValueError.

(** [str(n)] for a non-negative integer.  The integers the parser prints
    were read by [int] from at most [int_max_str_digits] digits, so that the
    same limit on this conversion is not reached. *)
Definition of_int (n : N) : string := NilEmpty.string_of_uint (N.to_uint n).

End Str.

(** ** Python's [re] module: a backtracking matcher

    A pattern is matched at a cursor of the subject; the matcher returns the
    cursors it can end at, in the order in which the backtracking engine
    tries them (greedy repetition first, alternatives from left to right).
    The first of them is the match Python reports. *)

Module Re.

Import Str.

Inductive cset_item :=
| CChar (c : ascii)          (* one character *)
| CRange (lo hi : ascii)     (* lo-hi *)
| CSpace                     (* \s *)
| CDigit.                    (* \d *)

Inductive regex :=
| Lit (s : string)                           (* literal text *)
| Set_ (negated : bool) (items : list cset_item)   (* [...] and [^...] *)
| Cat (r1 r2 : regex)
| Alt (r1 r2 : regex)                        (* r1|r2 *)
| Star (r : regex)                           (* r*  *)
| Plus (r : regex)                           (* r+  *)
| Opt (r : regex)                            (* r?  *)
| Rep (n : nat) (r : regex)                  (* r{n} *)
| Group (i : nat) (r : regex)                (* the i-th capturing group *)
| WordB.                                     (* \b *)

Definition space : regex := Set_ false [CSpace].
Definition digit : regex := Set_ false [CDigit].

Fixpoint cat (rs : list regex) : regex :=
  match rs with
  | [] => Lit ""
  | [r] => r
  | r :: rs' => Cat r (cat rs')
  end.

Fixpoint alt (rs : list regex) : regex :=
  match rs with
  | [] => Set_ false []
  | [r] => r
  | r :: rs' => Alt r (alt rs')
  end.

(** The number of capturing groups of a pattern, [Pattern.groups]. *)
Fixpoint ngroups (r : regex) : nat :=
  match r with
  | Lit _ | Set_ _ _ | WordB => 0
  | Cat r1 r2 | Alt r1 r2 => Nat.max (ngroups r1) (ngroups r2)
  | Star r | Plus r | Opt r | Rep _ r => ngroups r
  | Group i r => Nat.max i (ngroups r)
  end.

Section Matcher.

(** [re.IGNORECASE] *)
Variable ignorecase : bool.

Definition char_eq (p c : ascii) : bool :=
  if ignorecase then Ascii.eqb (lower_char c) (lower_char p) else Ascii.eqb c p.

Definition in_range (lo hi c : ascii) : bool :=
  between (nat_of_ascii lo) (nat_of_ascii hi) (nat_of_ascii c).

Definition item_match (it : cset_item) (c : ascii) : bool :=
  match it with
  | CChar p => char_eq p c
  | CRange lo hi =>
      in_range lo hi c
      || (ignorecase && (in_range lo hi (lower_char c) || in_range lo hi (upper_char c)))
  | CSpace => isspace c
  | CDigit => isdecimal c
  end.

Definition set_match (negated : bool) (items : list cset_item) (c : ascii) : bool :=
  xorb negated (existsb (fun it => item_match it c) items).

(** A cursor: the character to its left, the text to its right and the
    groups captured so far. *)
Record cursor := Cursor {
  before : option ascii;
  rest : string;
  caps : list (nat * string)
}.

Definition set_cap (i : nat) (txt : string) (caps : list (nat * string)) :=
  (i, txt) :: filter (fun e => negb (fst e =? i)) caps.

Fixpoint get_cap (i : nat) (caps : list (nat * string)) : option string :=
  match caps with
  | [] => None
  | (j, txt) :: caps' => if j =? i then Some txt else get_cap i caps'
  end.

(** The text between two cursors of one subject. *)
Definition consumed (from to : string) : string :=
  take (String.length from - String.length to) from.

Fixpoint lit_match (p : string) (st : cursor) : list cursor :=
  match p with
  | EmptyString => [st]
  | String pc p' =>
      match rest st with
      | String c s' =>
          if char_eq pc c then lit_match p' (Cursor (Some c) s' (caps st)) else []
      | EmptyString => []
      end
  end.

Definition opt_word (c : option ascii) : bool :=
  match c with Some c => isword c | None => false end.

Definition next_char (s : string) : option ascii :=
  match s with String c _ => Some c | EmptyString => None end.

Definition progress (from to : cursor) : bool :=
  String.length (rest to) <? String.length (rest from).

(** Greedy repetition: another round of the body as long as it consumes
    something, then the exit.  [n] bounds the rounds, each of which consumes
    a character. *)
Fixpoint star (body : cursor -> list cursor) (n : nat) (st : cursor) : list cursor :=
  match n with
  | 0 => [st]
  | S n' =>
      flat_map (fun st' => if progress st st' then star body n' st' else [])
               (body st) ++ [st]
  end%list.

Fixpoint rep (body : cursor -> list cursor) (n : nat) (st : cursor) : list cursor :=
  match n with
  | 0 => [st]
  | S n' => flat_map (rep body n') (body st)
  end.

Fixpoint matches (r : regex) (st : cursor) : list cursor :=
  match r with
  | Lit p => lit_match p st
  | Set_ negated items =>
      match rest st with
      | String c s' =>
          if set_match negated items c then [Cursor (Some c) s' (caps st)] else []
      | EmptyString => []
      end
  | Cat r1 r2 => flat_map (matches r2) (matches r1 st)
  | Alt r1 r2 => (matches r1 st ++ matches r2 st)%list
  | Star r' => star (matches r') (String.length (rest st)) st
  | Plus r' =>
      flat_map (fun st' => star (matches r') (String.length (rest st')) st')
               (matches r' st)
  | Opt r' => (matches r' st ++ [st])%list
  | Rep n r' => rep (matches r') n st
  | Group i r' =>
      map (fun st' =>
             Cursor (before st') (rest st')
                    (set_cap i (consumed (rest st) (rest st')) (caps st')))
          (matches r' st)
  | WordB =>
      if xorb (opt_word (before st)) (opt_word (next_char (rest st)))
      then [st] else []
  end.

(** A match object. *)
Record match_obj := Match {
  m_start : nat;                    (* m.start() *)
  m_text : string;                  (* m.group(0) *)
  m_caps : list (nat * string);
  m_groups : nat                    (* the pattern's number of groups *)
}.

Definition m_end (m : match_obj) : nat := m_start m + String.length (m_text m).

(** [m.group(i)]: [None] for a group that took no part in the match, an
    [IndexError] for a group the pattern does not have. *)
Definition group (m : match_obj) (i : nat) : result (option string) :=
  if i =? 0 then Ok (Some (m_text m))
  else if i <=? m_groups m then Ok (get_cap i (m_caps m))
  else Raise IndexError.

(** One attempt at one position.  With [must_advance] an empty match is
    refused and the engine backtracks to the next end. *)
Definition match_at (r : regex) (must_advance : bool)
    (pos : nat) (prev : option ascii) (s : string) : option match_obj :=
  let st := Cursor prev s [] in
  let ends := matches r st in
  let ends := if must_advance then filter (progress st) ends else ends in
  match ends with
  | st' :: _ => Some (Match pos (consumed s (rest st')) (caps st') (ngroups r))
  | [] => None
  end.

(** [re.search]: the first position, from the left, at which the pattern
    matches. *)
Fixpoint search_from (r : regex) (pos : nat) (prev : option ascii) (s : string)
  : option match_obj :=
  match match_at r false pos prev s with
  | Some m => Some m
  | None =>
      match s with
      | String c s' => search_from r (S pos) (Some c) s'
      | EmptyString => None
      end
  end.

Definition search (r : regex) (text : string) : option match_obj :=
  search_from r 0 None text.

(** The positions of a text, each with the character to its left: the
    places at which [search] attempts a match, from the left. *)
Fixpoint positions (prev : option ascii) (s : string)
  : list (option ascii * string) :=
  (prev, s) ::
  match s with
  | String c s' => positions (Some c) s'
  | EmptyString => []
  end.

(** [re.finditer]: the matches from left to right, none overlapping
    another.  [busy] counts the characters still covered by the last match.
    After an empty match the same position is tried once more for a match
    that is not empty. *)
Fixpoint finditer_from (r : regex) (busy : nat) (pos : nat)
    (prev : option ascii) (s : string) : list match_obj :=
  let continue busy' :=
    match s with
    | String c s' => finditer_from r busy' (S pos) (Some c) s'
    | EmptyString => []
    end in
  match busy with
  | S busy' => continue busy'
  | 0 =>
      match match_at r false pos prev s with
      | None => continue 0
      | Some m =>
          match String.length (m_text m) with
          | S n => m :: continue n
          | 0 =>
              match match_at r true pos prev s with
              | Some m' => m :: m' :: continue (String.length (m_text m') - 1)
              | None => m :: continue 0
              end
          end
      end
  end.

Definition finditer (r : regex) (text : string) : list match_obj :=
  finditer_from r 0 0 None text.

(** An element of [re.findall]'s list. *)
Inductive item :=
| IStr (s : string)
| ITuple (l : list string).

Definition group_or_empty (m : match_obj) (i : nat) : string :=
  match get_cap i (m_caps m) with Some s => s | None => "" end.

(** [re.findall]: the whole match when the pattern has no group, the group
    when it has one, the tuple of the groups when it has several; a group
    that took no part in the match gives the empty string. *)
Definition findall (r : regex) (text : string) : list item :=
  map (fun m =>
         match ngroups r with
         | 0 => IStr (m_text m)
         | 1 => IStr (group_or_empty m 1)
         | n => ITuple (map (group_or_empty m) (seq 1 n))
         end)
      (finditer r text).

(** [re.split] for a pattern without groups: the pieces of the text between
    the matches. *)
Fixpoint split_at (text : string) (last : nat) (ms : list match_obj) : list string :=
  match ms with
  | [] => [drop last text]
  | m :: ms' =>
      take (m_start m - last) (drop last text) :: split_at text (m_end m) ms'
  end.

Definition split (r : regex) (text : string) : list string :=
  split_at text 0 (finditer r text).

End Matcher.

End Re.

(** ** Python values *)

(** The order in which a Python [set] of strings is iterated depends on the
    interpreter's string hashing.  [list(s)] is modelled by an enumeration
    of the set's elements that the embedding takes as a parameter: some
    rearrangement of the elements in their insertion order. *)
Record set_order := SetOrder {
  enumerate :> list string -> list string;
  enumerate_perm : forall l, Permutation l (enumerate l)
}.

(** The enumeration in insertion order. *)
Definition insertion_order : set_order :=
  SetOrder (fun l => l) (fun l => Permutation_refl l).

(** The JSON-like values the parser puts in its records; a [dict] keeps its
    keys in insertion order. *)
#[warnings="-register-all"]
Inductive value :=
| VStr (s : string)
| VList (l : list string)
| VDict (d : list (string * value)).

Definition dict := list (string * value).

Definition keys (d : dict) : list string := map fst d.

(** ** job_parser.py *)

Module JobParser.

Import Str Re.

Definition words (l : list string) : regex := alt (map Lit l).

(** [self.skill_patterns]: each is [\b(?:w1|w2|...)\b] over the words listed. *)
Definition skill_patterns : list regex :=
  [ cat [WordB; words ["Python"; "Java"; "JavaScript"; "TypeScript"; "C++"; "C#";
                       "Go"; "Rust"; "Ruby"; "PHP"; "Swift"; "Kotlin"]; WordB];
    cat [WordB; words ["React"; "Angular"; "Vue"; "Node.js"; "Express"; "Django";
                       "Flask"; "Spring"; "Laravel"]; WordB];
    cat [WordB; words ["AWS"; "Azure"; "GCP"; "Docker"; "Kubernetes"; "Git";
                       "Jenkins"; "CI/CD"]; WordB];
    cat [WordB; words ["SQL"; "MongoDB"; "PostgreSQL"; "MySQL"; "Redis";
                       "Elasticsearch"]; WordB];
    cat [WordB; words ["Machine Learning"; "ML"; "AI"; "Data Science";
                       "Analytics"; "Statistics"]; WordB];
    cat [WordB; words ["Agile"; "Scrum"; "DevOps"; "Microservices"; "REST"; "API";
                       "GraphQL"]; WordB] ].

(** [self.seniority_keywords], in the order of the dict literal. *)
Definition seniority_keywords : list (string * list string) :=
  [ ("junior", ["junior"; "entry"; "associate"; "graduate"; "intern"]);
    ("mid", ["mid"; "intermediate"; "regular"; "software engineer"; "developer"]);
    ("senior", ["senior"; "sr"; "lead"; "principal"; "staff"; "expert"]);
    ("manager", ["manager"; "director"; "head"; "chief"; "vp"; "vice president"]) ].

(** [self.experience_patterns] *)
Definition experience_range : regex :=
  cat [Group 1 (Plus digit);                             (* (\d+) *)
       Star (Set_ false [CChar "+"; CChar "-"; CSpace]);  (* [\+\-\s]* *)
       Opt (Alt (Lit "to") (Lit "-"));                    (* (?:to|-)? *)
       Star space;                                        (* \s* *)
       Opt (Group 2 (Plus digit));                        (* (\d+)? *)
       Star space;                                        (* \s* *)
       Lit "year"; Opt (Lit "s");                         (* years? *)
       Star space;                                        (* \s* *)
       Opt (Cat (Lit "of") (Star space));                 (* (?:of\s* )? *)
       Lit "experience"].                                 (* experience *)

Definition experience_plus : regex :=      (* (\d+)\+\s*years? *)
  cat [Group 1 (Plus digit); Lit "+"; Star space; Lit "year"; Opt (Lit "s")].

Definition experience_minimum : regex :=   (* minimum\s*(\d+)\s*years? *)
  cat [Lit "minimum"; Star space; Group 1 (Plus digit); Star space;
       Lit "year"; Opt (Lit "s")].

Definition experience_at_least : regex :=  (* at\s*least\s*(\d+)\s*years? *)
  cat [Lit "at"; Star space; Lit "least"; Star space; Group 1 (Plus digit);
       Star space; Lit "year"; Opt (Lit "s")].

Definition experience_patterns : list regex :=
  [ experience_range; experience_plus; experience_minimum; experience_at_least ].

(** [location_patterns] of [extract_location] *)
Definition location_label : regex :=      (* location:?\s*([^\n\r]+) *)
  cat [Lit "location"; Opt (Lit ":"); Star space;
       Group 1 (Plus (Set_ true [CChar LF; CChar CR]))].

Definition location_based_in : regex :=   (* based in\s*([^\n\r,]+) *)
  cat [Lit "based in"; Star space;
       Group 1 (Plus (Set_ true [CChar LF; CChar CR; CChar ","]))].

Definition location_city_state : regex := (* ([A-Z][a-z]+,?\s*[A-Z]{2}) *)
  Group 1 (cat [Set_ false [CRange "A" "Z"];
                Plus (Set_ false [CRange "a" "z"]);
                Opt (Lit ",");
                Star space;
                Rep 2 (Set_ false [CRange "A" "Z"])]).

Definition location_patterns : list regex :=
  [ location_label; location_based_in; location_city_state;
    Lit "remote"; Lit "hybrid"; Lit "on-site" ].

Definition skill_keywords : list string :=
  [ "python"; "java"; "javascript"; "typescript"; "react"; "angular"; "vue";
    "node.js"; "django"; "flask"; "spring"; "aws"; "azure"; "docker";
    "kubernetes"; "git"; "sql"; "mongodb"; "postgresql"; "machine learning";
    "data science"; "agile"; "scrum"; "devops"; "rest api"; "microservices" ].

(** The strings of a [findall] list.  The skill patterns have no group, so
    their lists hold strings only. *)
Fixpoint strings_of (l : list item) : list string :=
  match l with
  | [] => []
  | IStr s :: l' => s :: strings_of l'
  | ITuple _ :: l' => strings_of l'
  end.

(** [skills.update(matches)] *)
Definition update (skills : set string) (matches : list string) : set string :=
  fold_left (fun acc m => set_add string_dec m acc) matches skills.

(** The set [skills] at the end of [extract_skills], its elements in the
    order in which they were added. *)
Definition skills_set (text : string) : set string :=
  let text_lower := lower text in
  let skills :=
    fold_left (fun skills pattern =>
                 update skills (strings_of (findall true pattern text)))
              skill_patterns (empty_set string) in
  fold_left (fun skills skill =>
               if contains skill text_lower
               then set_add string_dec (title skill) skills
               else skills)
            skill_keywords skills.

Fixpoint scan_keywords (level : string) (keywords : list string)
    (text_lower : string) : option string :=
  match keywords with
  | [] => None
  | keyword :: keywords' =>
      if contains keyword text_lower then Some level
      else scan_keywords level keywords' text_lower
  end.

Fixpoint scan_levels (table : list (string * list string))
    (text_lower : string) : option string :=
  match table with
  | [] => None
  | (level, keywords) :: table' =>
      match scan_keywords level keywords text_lower with
      | Some l => Some l
      | None => scan_levels table' text_lower
      end
  end.

Definition extract_seniority_level (text : string) : string :=
  match scan_levels seniority_keywords (lower text) with
  | Some level => level
  | None => "mid"
  end.

(** [[int(x) for x in xs]] *)
Fixpoint ints (xs : list string) : result (list N) :=
  match xs with
  | [] => Ok []
  | x :: xs' => n <- int x ;; ns <- ints xs' ;; Ok (n :: ns)
  end.

Fixpoint years_loop (patterns : list regex) (text : string) : result string :=
  match patterns with
  | [] => Ok "Not specified"
  | pattern :: patterns' =>
      match findall true pattern text with
      | [] => years_loop patterns' text
      | ITuple groups :: _ =>
          years <- ints (filter isdigit groups) ;;
          match years with
          | [y0; y1] => Ok (of_int y0 ++ "-" ++ of_int y1 ++ " years")
          | [y0] => Ok (of_int y0 ++ "+ years")
          | _ => years_loop patterns' text
          end
      | IStr m :: _ => Ok (m ++ "+ years")
      end
  end.

Definition extract_years_of_experience (text : string) : result string :=
  years_loop experience_patterns text.

Fixpoint location_loop (patterns : list regex) (text : string) : result string :=
  match patterns with
  | [] => Ok "Not specified"
  | pattern :: patterns' =>
      match search true pattern text with
      | Some m =>
          g1 <- group m 1 ;;
          match g1 with
          | Some (String c s) => Ok (strip (String c s))
          | _ => Ok (m_text m)
          end
      | None => location_loop patterns' text
      end
  end.

Definition extract_location (text : string) : result string :=
  location_loop location_patterns text.

Definition title_keywords : list string :=
  ["engineer"; "developer"; "manager"; "analyst"; "scientist"].

Fixpoint title_loop (lines : list string) : string :=
  match lines with
  | [] => "Position not clearly specified"
  | line :: lines' =>
      let line := strip line in
      if existsb (fun keyword => contains keyword (lower line)) title_keywords
      then line else title_loop lines'
  end.

Definition extract_job_title (text : string) : string :=
  title_loop (firstn 5 (Str.split LF text)).

(** [[.!?]+] *)
Definition sentence_end : regex :=
  Plus (Set_ false [CChar "."; CChar "!"; CChar "?"]).

Definition generate_summary (text job_title : string) (skills : list string)
  : string :=
  let sentences := Re.split false sentence_end text in
  let summary_parts :=
    fold_left (fun summary_parts sentence =>
                 if 20 <? String.length (strip sentence)
                 then (summary_parts ++ [strip sentence])%list
                 else summary_parts)
              (firstn 3 sentences) [] in
  let base_summary :=
    match summary_parts with
    | [] => "Looking for a " ++ job_title
    | _ => join ". " (firstn 2 summary_parts)
    end in
  match skills with
  | [] => base_summary
  | _ => base_summary ++ " with expertise in " ++ join ", " (firstn 3 skills) ++ "."
  end.

Definition placeholder : string := "{job_description}".

Definition error_record : dict :=
  [ ("error", VStr "No job description provided. Please replace {job_description} with actual job description text.") ].

Section Parser.

(** The iteration order of the interpreter's sets. *)
Variable order : set_order.

Definition extract_skills (text : string) : list string :=
  order (skills_set text).

Definition parse (job_description : string) : result dict :=
  if (job_description =? "")%string
     || (strip job_description =? placeholder)%string
  then Ok error_record
  else
    let job_title := extract_job_title job_description in
    let seniority_level := extract_seniority_level job_description in
    let required_skills := extract_skills job_description in
    years_of_experience <- extract_years_of_experience job_description ;;
    preferred_location <- extract_location job_description ;;
    let summary := generate_summary job_description job_title required_skills in
    Ok [ ("jobTitle", VStr job_title);
         ("seniorityLevel", VStr seniority_level);
         ("requiredSkills", VList required_skills);
         ("yearsOfExperience", VStr years_of_experience);
         ("preferredLocation", VStr preferred_location);
         ("summary", VStr summary) ].

End Parser.

(** [sample_job_description] of [main] *)
Definition sample_job_description : string :=
  join (String LF "")
    [ "";
      "    Senior Software Engineer - Full Stack Development";
      "    ";
      "    We are seeking a Senior Software Engineer to join our dynamic team. The ideal candidate will have 5+ years of experience in full-stack development and be proficient in modern web technologies.";
      "    ";
      "    Requirements:";
      "    - 5+ years of professional software development experience";
      "    - Strong proficiency in Python, JavaScript, and React";
      "    - Experience with AWS cloud services";
      "    - Knowledge of Docker and Kubernetes";
      "    - Familiarity with Agile development methodologies";
      "    - Bachelor's degree in Computer Science or related field";
      "    ";
      "    Location: San Francisco, CA (Hybrid work arrangement available)";
      "    ";
      "    Join our innovative team and help build cutting-edge applications that serve millions of users worldwide.";
      "    " ].

End JobParser.

(** ** parse_job.py *)

Module ParseJob.

Import Str.

Definition placeholder_response : dict :=
  [ ("error", VStr "Please replace {job_description} with actual job description text");
    ("example",
     VDict [ ("jobTitle", VStr "Senior Software Engineer");
             ("seniorityLevel", VStr "senior");
             ("requiredSkills", VList ["Python"; "JavaScript"; "React"; "AWS"]);
             ("yearsOfExperience", VStr "5+ years");
             ("preferredLocation", VStr "San Francisco, CA");
             ("summary", VStr "Senior Software Engineer position requiring 5+ years experience with modern web technologies.") ]) ].

Definition parse_job_description (order : set_order)
    (job_description_text : string) : result dict :=
  if contains "{job_description}" job_description_text
  then Ok placeholder_response
  else JobParser.parse order job_description_text.

End ParseJob.

(** ** The selection rules in the specification's words *)

Module Spec.

Import Str Re JobParser.

(** The sentence-like fragments of a text. *)
Definition fragments (text : string) : list string :=
  Re.split false sentence_end text.

(** A fragment qualifies when its trimmed length exceeds 20 characters. *)
Definition qualifies (fragment : string) : bool :=
  20 <? String.length (strip fragment).

(** The first two qualifying fragments among those examined, joined with a
    full stop and a space; the templated sentence when none qualifies. *)
Definition selected_summary (examined : list string) (job_title : string)
  : string :=
  match filter qualifies examined with
  | [] => "Looking for a " ++ job_title
  | qualifying => join ". " (map strip (firstn 2 qualifying))
  end.

(** The clause naming up to three skills. *)
Definition skills_clause (skills : list string) : string :=
  match skills with
  | [] => ""
  | _ => " with expertise in " ++ join ", " (firstn 3 skills) ++ "."
  end.

(** A level has a cue in the text when one of its keywords occurs in the
    lower-cased text. *)
Definition has_cue (text : string) (entry : string * list string) : bool :=
  existsb (fun keyword => contains keyword (lower text)) (snd entry).

(** The first level, in the table's order, with a cue in the text. *)
Definition first_level (text : string) : string :=
  match find (has_cue text) seniority_keywords with
  | Some entry => fst entry
  | None => "mid"
  end.

(** The six keys of a parsed record, in their order. *)
Definition record_keys : list string :=
  [ "jobTitle"; "seniorityLevel"; "requiredSkills"; "yearsOfExperience";
    "preferredLocation"; "summary" ].

End Spec.

(** ** Invariants of the matcher on the parser's patterns *)

Module Inv.

Import Str Re.

(** An ASCII letter, of either case. *)
Definition letter (c : ascii) : bool :=
  between 97 122 (nat_of_ascii (lower_char c)).

(** The text starts with four letters. *)
Definition four_letters (s : string) : bool :=
  match s with
  | String a (String b (String c (String d _))) =>
      letter a && letter b && letter c && letter d
  | _ => false
  end.

(** The text has a run of four letters somewhere. *)
Definition has_letter_run (text : string) : bool :=
  existsb (fun pt => four_letters (snd pt)) (positions None text).

(** Every capturing group of the pattern is [(\d+)]. *)
Fixpoint digit_groups (r : regex) : bool :=
  match r with
  | Lit _ | Set_ _ _ | WordB => true
  | Cat r1 r2 | Alt r1 r2 => digit_groups r1 && digit_groups r2
  | Star r' | Plus r' | Opt r' | Rep _ r' => digit_groups r'
  | Group _ (Plus (Set_ false [CDigit])) => true
  | Group _ _ => false
  end.

Definition decimal (s : string) : Prop := all_chars isdecimal s = true.

Definition caps_decimal (cs : list (nat * string)) : Prop :=
  Forall (fun e => decimal (snd e)) cs.

(** From [st] to [st'] the matcher consumed decimal digits only and left
    the groups as they were: what [\d], [\d*] and [\d+] do. *)
Definition digit_run (st st' : cursor) : Prop :=
  exists d, rest st = (d ++ rest st')%string /\ decimal d /\ caps st' = caps st.

(** The elements of a [findall] list whose tuples hold decimal strings. *)
Definition decimal_item (it : item) : Prop :=
  match it with
  | IStr _ => True
  | ITuple l => Forall decimal l
  end.

End Inv.

(** ** The shapes of the parser's patterns and results *)

Module Shape.

Import Str Re JobParser Inv.

(** The level's keywords have a cue in the text. *)
Definition cue (level text : string) : bool :=
  match find (fun entry => (fst entry =? level)%string) seniority_keywords with
  | Some entry => Spec.has_cue text entry
  | None => false
  end.

(** Group [i] occurs in the pattern. *)
Fixpoint mentions (i : nat) (r : regex) : bool :=
  match r with
  | Lit _ | Set_ _ _ | WordB => false
  | Cat r1 r2 | Alt r1 r2 => mentions i r1 || mentions i r2
  | Star r' | Plus r' | Opt r' | Rep _ r' => mentions i r'
  | Group j r' => (j =? i) || mentions i r'
  end.

(** Every match of the pattern takes at least one character. *)
Fixpoint consumes (r : regex) : bool :=
  match r with
  | Lit w => negb (w =? "")%string
  | Set_ _ _ => true
  | Cat r1 r2 => consumes r1 || consumes r2
  | Alt r1 r2 => consumes r1 && consumes r2
  | Plus r' | Group _ r' => consumes r'
  | Rep (S _) r' => consumes r'
  | Rep 0 _ | Star _ | Opt _ | WordB => false
  end.

(** Every match of the pattern leaves group [i] set to a text that is not
    empty: the group is on the path of every match, its body takes at least
    one character and nothing after it sets the group again. *)
Fixpoint captures (i : nat) (r : regex) : bool :=
  match r with
  | Cat r1 r2 => (captures i r1 && negb (mentions i r2)) || captures i r2
  | Group j r' => (j =? i) && consumes r'
  | _ => false
  end.

(** [st'] is a cursor of the same subject as [st], not to its left. *)
Definition ahead (st st' : cursor) : Prop :=
  exists x, rest st = (x ++ rest st')%string.

Definition captured (i : nat) (cs : list (nat * string)) : Prop :=
  exists g, get_cap i cs = Some g /\ g <> "".

(** The location patterns that have a group. *)
Definition labelled_patterns : list regex :=
  [location_label; location_based_in; location_city_state].

(** A number as the experience extractor prints it: decimal digits, at
    least one. *)
Definition number (s : string) : Prop := s <> "" /\ decimal s.

(** The two forms of a found experience requirement, "N+ years" and
    "N-M years". *)
Definition years_found (s : string) : Prop :=
  (exists n, number n /\ s = n ++ "+ years")%string
  \/ (exists a b, number a /\ number b /\ s = a ++ "-" ++ b ++ " years")%string.

(** A pattern of the experience table: its groups are runs of digits, the
    first is part of every match, and there are one or two of them. *)
Definition experience_like (r : regex) : Prop :=
  digit_groups r = true /\ captures 1 r = true /\ (ngroups r = 1 \/ ngroups r = 2).

(** The line, lower-cased, has one of the role words of the title
    extractor. *)
Definition has_role (line : string) : bool :=
  existsb (fun keyword => contains keyword (lower line)) title_keywords.

Definition no_line_feed (s : string) : bool :=
  all_chars (fun c => negb (Ascii.eqb c LF)) s.

(** The words of the six skill patterns and of the keyword list, in lower
    case. *)
Definition skill_vocabulary : list string :=
  [ "python"; "java"; "javascript"; "typescript"; "c++"; "c#"; "go"; "rust";
    "ruby"; "php"; "swift"; "kotlin";
    "react"; "angular"; "vue"; "node.js"; "express"; "django"; "flask";
    "spring"; "laravel";
    "aws"; "azure"; "gcp"; "docker"; "kubernetes"; "git"; "jenkins"; "ci/cd";
    "sql"; "mongodb"; "postgresql"; "mysql"; "redis"; "elasticsearch";
    "machine learning"; "ml"; "ai"; "data science"; "analytics"; "statistics";
    "agile"; "scrum"; "devops"; "microservices"; "rest"; "api"; "graphql";
    "rest api" ].

(** A whole-word pattern over a list of words, [\b(?:w1|w2|...)\b]. *)
Definition word_pattern (l : list string) : regex := cat [WordB; words l; WordB].

Definition in_list (w : string) (l : list string) : bool :=
  existsb (String.eqb w) l.

(** The groups of the first match of the range pattern, [matches[0]] in the
    first round of the experience loop; none when the pattern is not
    found. *)
Definition first_range_groups (text : string) : list string :=
  match findall true experience_range text with
  | ITuple groups :: _ => groups
  | _ => []
  end.

Definition over_limit (g : string) : bool :=
  int_max_str_digits <? String.length g.

(** One of these groups has more digits than [int] converts. *)
Definition years_overflow (text : string) : bool :=
  existsb over_limit (first_range_groups text).


(** The last character of a text. *)
Fixpoint last_char (s : string) : option ascii :=
  match s with
  | EmptyString => None
  | String c EmptyString => Some c
  | String _ s' => last_char s'
  end.

(** After the text [t] comes a word boundary, [y] being what follows. *)
Definition boundary_after (t y : string) : bool :=
  xorb (opt_word (last_char t)) (opt_word (next_char y)).

End Shape.

Import Str Re JobParser Inv Shape.

(** * Properties *)

(** ** Strings and lists *)

Lemma append_empty_r (s : string) : (s ++ "")%string = s.
Proof. induction s as [|c s IH]; simpl; [reflexivity | now rewrite IH]. Qed.

Lemma append_assoc (a b c : string) : ((a ++ b) ++ c = a ++ (b ++ c))%string.
Proof. induction a as [|x a IH]; simpl; [reflexivity | now rewrite IH]. Qed.

Lemma length_append (a b : string) :
  String.length (a ++ b) = String.length a + String.length b.
Proof. induction a as [|c a IH]; simpl; [reflexivity | now rewrite IH]. Qed.

Lemma take_append (a b : string) : take (String.length a) (a ++ b) = a.
Proof. induction a as [|c a IH]; simpl; [now destruct b | now rewrite IH]. Qed.

Lemma consumed_append (a b : string) : consumed (a ++ b) b = a.
Proof.
  unfold consumed. rewrite length_append.
  replace (String.length a + String.length b - String.length b)
    with (String.length a) by lia.
  apply take_append.
Qed.

Lemma all_chars_append (p : ascii -> bool) (a b : string) :
  all_chars p a = true -> all_chars p b = true -> all_chars p (a ++ b) = true.
Proof.
  induction a as [|c a IH]; simpl; [auto|].
  intros H Hb. apply andb_prop in H as [H1 H2]. rewrite H1. simpl. auto.
Qed.

Lemma collect_fold {A B : Type} (p : A -> bool) (f : A -> B) (l : list A) :
  forall acc,
    fold_left (fun parts x => if p x then (parts ++ [f x])%list else parts) l acc
    = (acc ++ map f (filter p l))%list.
Proof.
  induction l as [|x l IH]; intros acc; simpl.
  - now rewrite app_nil_r.
  - rewrite IH. destruct (p x); simpl; [now rewrite <- app_assoc | reflexivity].
Qed.

Lemma not_some_none {A : Type} (o : option A) : ~ o <> None -> o = None.
Proof. destruct o; [intros H; elim H; discriminate | reflexivity]. Qed.

(** ** The matcher *)

(** The bound on the rounds of a repetition never cuts it short: any two
    bounds that reach the length of the remaining text give the same ends. *)
Lemma star_fuel (body : cursor -> list cursor) :
  forall n m st,
    String.length (rest st) <= n -> String.length (rest st) <= m ->
    star body n st = star body m st.
Proof.
  assert (Z : forall m st, String.length (rest st) = 0 -> star body m st = [st]).
  { intros [|m] st E; cbn [star]; [reflexivity|].
    replace (flat_map _ (body st)) with (@nil cursor); [reflexivity|].
    symmetry. induction (body st) as [|x l IH]; cbn [flat_map]; [reflexivity|].
    unfold progress at 1. rewrite E. cbn. exact IH. }
  induction n as [|n IH]; intros m st Hn Hm.
  - rewrite (Z m st); [reflexivity | lia].
  - destruct m as [|m]; [rewrite (Z (S n) st); [reflexivity | lia]|].
    cbn [star]. f_equal. apply flat_map_ext. intros st1.
    unfold progress. destruct (String.length (rest st1) <? String.length (rest st)) eqn:E;
      [|reflexivity].
    apply Nat.ltb_lt in E. apply IH; lia.
Qed.

Lemma star_exit body n st : In st (star body n st).
Proof. destruct n; simpl; [now left | apply in_or_app; right; now left]. Qed.

Lemma star_invariant (P : cursor -> Prop) body :
  (forall st st', In st' (body st) -> P st -> P st') ->
  forall n st st', In st' (star body n st) -> P st -> P st'.
Proof.
  intros B. induction n as [|n IH]; intros st st'; simpl.
  - now intros [<-|[]].
  - intros H. apply in_app_or in H as [H|[<-|[]]]; [|auto].
    apply in_flat_map in H as (st1 & H1 & H2).
    destruct (progress st st1); [|destruct H2]. eauto.
Qed.

Lemma rep_invariant (P : cursor -> Prop) body :
  (forall st st', In st' (body st) -> P st -> P st') ->
  forall n st st', In st' (rep body n st) -> P st -> P st'.
Proof.
  intros B. induction n as [|n IH]; intros st st'; simpl.
  - now intros [<-|[]].
  - intros H. apply in_flat_map in H as (st1 & H1 & H2). eauto.
Qed.

(** *** Ends the matcher reaches *)

Lemma in_cat ic r1 r2 st st1 st2 :
  In st1 (matches ic r1 st) -> In st2 (matches ic r2 st1) ->
  In st2 (matches ic (Cat r1 r2) st).
Proof. intros H1 H2. simpl. apply in_flat_map. eauto. Qed.

Lemma in_set ic negated items c p s cs :
  set_match ic negated items c = true ->
  In (Cursor (Some c) s cs)
     (matches ic (Set_ negated items) (Cursor p (String c s) cs)).
Proof. intros H. simpl. rewrite H. now left. Qed.

Lemma in_plus ic r st st1 :
  In st1 (matches ic r st) -> In st1 (matches ic (Plus r) st).
Proof.
  intros H. simpl. apply in_flat_map. exists st1. split; [exact H | apply star_exit].
Qed.

Lemma in_opt_skip ic r st : In st (matches ic (Opt r) st).
Proof. simpl. apply in_or_app. right. now left. Qed.

Lemma in_star_skip ic r st : In st (matches ic (Star r) st).
Proof. simpl. apply star_exit. Qed.

Lemma in_rep_S ic r n st st1 st2 :
  In st1 (matches ic r st) -> In st2 (matches ic (Rep n r) st1) ->
  In st2 (matches ic (Rep (S n) r) st).
Proof. intros H1 H2. simpl. apply in_flat_map. eauto. Qed.

Lemma in_rep_0 ic r st : In st (matches ic (Rep 0 r) st).
Proof. now left. Qed.

Lemma in_group ic i r st st1 :
  In st1 (matches ic r st) ->
  In (Cursor (before st1) (rest st1)
             (set_cap i (consumed (rest st) (rest st1)) (caps st1)))
     (matches ic (Group i r) st).
Proof.
  intros H. simpl.
  apply (in_map (fun st' => Cursor (before st') (rest st')
                   (set_cap i (consumed (rest st) (rest st')) (caps st')))), H.
Qed.

Lemma lit_match_cons ic pc w p t cs :
  lit_match ic (String pc w) (Cursor p t cs) <> [] ->
  exists c t', t = String c t' /\ char_eq ic pc c = true
               /\ lit_match ic w (Cursor (Some c) t' cs) <> [].
Proof.
  cbn [lit_match rest caps]. destruct t as [|c t']; [intros N; now elim N|].
  destruct (char_eq ic pc c) eqn:E; [|intros N; now elim N].
  intros N. now exists c, t'.
Qed.

Lemma lit_match_caps ic w : forall st st',
  In st' (lit_match ic w st) -> caps st' = caps st.
Proof.
  induction w as [|pc w IH]; intros st st'; simpl.
  - now intros [<-|[]].
  - destruct (rest st) as [|c s]; [intros []|].
    destruct (char_eq ic pc c); [|intros []].
    intros H. now apply IH in H.
Qed.

(** *** [search] and [finditer] *)

Lemma match_at_none ic r pos prev s :
  match_at ic r false pos prev s = None <-> matches ic r (Cursor prev s []) = [].
Proof.
  unfold match_at. destruct (matches ic r (Cursor prev s [])); split; congruence.
Qed.

Lemma match_at_groups ic r adv pos prev s m :
  match_at ic r adv pos prev s = Some m -> m_groups m = ngroups r.
Proof.
  unfold match_at.
  destruct (if adv then _ else _); [discriminate|].
  intros H. injection H as <-. reflexivity.
Qed.

(** [search] finds nothing exactly when the pattern matches at no position. *)
Lemma search_from_none ic r s : forall pos prev,
  search_from ic r pos prev s = None <->
  forall p t, In (p, t) (positions prev s) -> matches ic r (Cursor p t []) = [].
Proof.
  induction s as [|c s IH]; intros pos prev; simpl.
  - destruct (match_at ic r false pos prev "") eqn:E.
    + split; [discriminate|]. intros H.
      assert (N : match_at ic r false pos prev "" = None)
        by (apply match_at_none, H; now left).
      congruence.
    + split; [|reflexivity]. intros _ p t [H|[]]. injection H as <- <-.
      now apply match_at_none in E.
  - destruct (match_at ic r false pos prev (String c s)) eqn:E.
    + split; [discriminate|]. intros H.
      assert (N : match_at ic r false pos prev (String c s) = None)
        by (apply match_at_none, H; now left).
      congruence.
    + rewrite IH. split.
      * intros H p t [H1|H1]; [|now apply H].
        injection H1 as <- <-. now apply match_at_none in E.
      * intros H p t H1. apply H. now right.
Qed.

Lemma search_from_groups ic r s : forall pos prev m,
  search_from ic r pos prev s = Some m -> m_groups m = ngroups r.
Proof.
  induction s as [|c s IH]; intros pos prev m; simpl;
    destruct (match_at ic r false pos prev _) eqn:E; intros H;
    try discriminate.
  - injection H as <-. eapply match_at_groups, E.
  - injection H as <-. eapply match_at_groups, E.
  - eapply IH, H.
Qed.

Lemma positions_trans s : forall prev p t x,
  In (p, t) (positions prev s) -> In x (positions p t) -> In x (positions prev s).
Proof.
  induction s as [|c s IH]; intros prev p t x; simpl.
  - intros [H|[]]. injection H as <- <-. simpl. auto.
  - intros [H|H].
    + injection H as <- <-. simpl. auto.
    + intros Hx. right. eapply IH; eauto.
Qed.

Lemma search_some_iff ic r text :
  search ic r text <> None <->
  exists p t, In (p, t) (positions None text) /\ matches ic r (Cursor p t []) <> [].
Proof.
  unfold search.
  set (hit := fun pt : option ascii * string =>
                match matches ic r (Cursor (fst pt) (snd pt) []) with
                | [] => false
                | _ => true
                end).
  split.
  - intros H. destruct (existsb hit (positions None text)) eqn:E.
    + apply existsb_exists in E as [[p t] [I E]]. exists p, t. split; [exact I|].
      unfold hit in E. simpl in E. intros N. rewrite N in E. discriminate.
    + elim H. apply search_from_none. intros p t I.
      destruct (matches ic r (Cursor p t [])) eqn:M; [reflexivity|].
      assert (X : existsb hit (positions None text) = true).
      { apply existsb_exists. exists (p, t). split; [exact I|].
        unfold hit. simpl. now rewrite M. }
      congruence.
  - intros (p & t & I & M) N. apply M. eapply search_from_none; eauto.
Qed.

Lemma finditer_from_none ic r s : forall pos prev,
  search_from ic r pos prev s = None -> finditer_from ic r 0 pos prev s = [].
Proof.
  induction s as [|c s IH]; intros pos prev; cbn [search_from finditer_from];
    destruct (match_at ic r false pos prev _); try discriminate; auto.
Qed.

(** *** Groups that capture digits *)

Lemma digit_run_refl st : digit_run st st.
Proof. exists "". repeat split. Qed.

Lemma digit_run_trans st1 st2 st3 :
  digit_run st1 st2 -> digit_run st2 st3 -> digit_run st1 st3.
Proof.
  intros (d1 & E1 & D1 & C1) (d2 & E2 & D2 & C2).
  exists (d1 ++ d2)%string. repeat split.
  - rewrite E1, E2. now rewrite append_assoc.
  - now apply all_chars_append.
  - congruence.
Qed.

Lemma digit_step ic st st' :
  In st' (matches ic digit st) -> digit_run st st'.
Proof.
  unfold digit. cbn [matches].
  destruct st as [p [|c s] cs]; cbn [rest caps]; [intros []|].
  destruct (set_match ic false [CDigit] c) eqn:E; [|intros []].
  intros [<-|[]]. exists (String c ""). repeat split.
  unfold decimal. simpl. unfold set_match in E. simpl in E.
  rewrite orb_false_r in E. now rewrite E.
Qed.

Lemma digit_star ic n : forall st st',
  In st' (star (matches ic digit) n st) -> digit_run st st'.
Proof.
  induction n as [|n IH]; intros st st'; cbn [star].
  - intros [<-|[]]. apply digit_run_refl.
  - intros H. apply in_app_or in H as [H|[<-|[]]]; [|apply digit_run_refl].
    apply in_flat_map in H as (st1 & H1 & H2).
    destruct (progress st st1); [|destruct H2].
    exact (digit_run_trans _ _ _ (digit_step ic _ _ H1) (IH _ _ H2)).
Qed.

Lemma digit_plus ic st st' :
  In st' (matches ic (Plus digit) st) -> digit_run st st'.
Proof.
  cbn [matches]. intros H. apply in_flat_map in H as (st1 & H1 & H2).
  exact (digit_run_trans _ _ _ (digit_step ic _ _ H1) (digit_star ic _ _ _ H2)).
Qed.

Lemma set_cap_decimal i txt cs :
  decimal txt -> caps_decimal cs -> caps_decimal (set_cap i txt cs).
Proof.
  intros D C. unfold set_cap. constructor; [exact D|].
  unfold caps_decimal in *. rewrite Forall_forall in *.
  intros e H. apply filter_In in H as [H _]. auto.
Qed.

(** A pattern whose groups are all [(\d+)] captures decimal digits only. *)
Lemma matches_caps_decimal ic r :
  digit_groups r = true ->
  forall st st', In st' (matches ic r st) ->
                 caps_decimal (caps st) -> caps_decimal (caps st').
Proof.
  induction r as [w|neg items|r1 IH1 r2 IH2|r1 IH1 r2 IH2|r IH|r IH|r IH|n r IH|i r IH|];
    intros G st st'; cbn [matches].
  - intros H. apply lit_match_caps in H. now rewrite H.
  - destruct (rest st) as [|c s]; [intros []|].
    destruct (set_match ic neg items c); [|intros []].
    intros [<-|[]]. cbn [caps]. auto.
  - simpl in G. apply andb_prop in G as [G1 G2].
    intros H. apply in_flat_map in H as (st1 & H1 & H2). eauto.
  - simpl in G. apply andb_prop in G as [G1 G2].
    intros H. apply in_app_or in H as [H|H]; eauto.
  - simpl in G.
    exact (star_invariant (fun st => caps_decimal (caps st)) _ (IH G) _ st st').
  - simpl in G. intros H. apply in_flat_map in H as (st1 & H1 & H2). intros C.
    exact (star_invariant (fun st => caps_decimal (caps st)) _ (IH G) _ _ _ H2
             (IH G _ _ H1 C)).
  - simpl in G. intros H. apply in_app_or in H as [H|[<-|[]]]; eauto.
  - simpl in G.
    exact (rep_invariant (fun st => caps_decimal (caps st)) _ (IH G) _ st st').
  - intros H C. apply in_map_iff in H as (st1 & <- & H1). cbn [caps].
    assert (R : digit_run st st1).
    { simpl in G. destruct r as [| | | | |r| | | |]; try discriminate.
      destruct r as [|[] [|[] [|]]| | | | | | | |]; try discriminate.
      exact (digit_plus ic _ _ H1). }
    destruct R as (d & E & D & K).
    apply set_cap_decimal; [|now rewrite K].
    rewrite E. now rewrite consumed_append.
  - destruct (xorb _ _); [|intros []]. now intros [<-|[]].
Qed.

Lemma match_at_decimal ic r adv pos prev s m :
  digit_groups r = true ->
  match_at ic r adv pos prev s = Some m -> caps_decimal (m_caps m).
Proof.
  intros G. unfold match_at.
  set (st := Cursor prev s []).
  assert (I : forall l, incl l (matches ic r st) ->
              match l with
              | st' :: _ =>
                  Some (Match pos (consumed s (rest st')) (caps st') (ngroups r))
              | [] => None
              end = Some m -> caps_decimal (m_caps m)).
  { intros [|st' l] L H; [discriminate|]. injection H as <-. cbn [m_caps].
    apply (matches_caps_decimal ic r G st st'); [apply L; now left | constructor]. }
  destruct adv; apply I.
  - intros x H. now apply filter_In in H.
  - apply incl_refl.
Qed.

Lemma finditer_from_decimal ic r s :
  digit_groups r = true ->
  forall busy pos prev m,
    In m (finditer_from ic r busy pos prev s) -> caps_decimal (m_caps m).
Proof.
  intros G. induction s as [|c s IH]; intros busy pos prev m; cbn [finditer_from].
  - destruct busy; [|intros []].
    destruct (match_at ic r false pos prev "") as [m0|] eqn:E; [|intros []].
    destruct (String.length (m_text m0)).
    + destruct (match_at ic r true pos prev "") as [m1|] eqn:E1.
      * intros [<-|[<-|[]]]; eapply match_at_decimal; eauto.
      * intros [<-|[]]; eapply match_at_decimal; eauto.
    + intros [<-|[]]; eapply match_at_decimal; eauto.
  - destruct busy; [|apply IH].
    destruct (match_at ic r false pos prev (String c s)) as [m0|] eqn:E; [|apply IH].
    destruct (String.length (m_text m0)).
    + destruct (match_at ic r true pos prev (String c s)) as [m1|] eqn:E1.
      * intros [<-|[<-|H]]; [| |eapply IH, H]; eapply match_at_decimal; eauto.
      * intros [<-|H]; [|eapply IH, H]; eapply match_at_decimal; eauto.
    + intros [<-|H]; [|eapply IH, H]; eapply match_at_decimal; eauto.
Qed.

Lemma group_or_empty_decimal m i :
  caps_decimal (m_caps m) -> decimal (group_or_empty m i).
Proof.
  unfold group_or_empty. induction 1 as [|[j txt] cs D F IH]; simpl; [reflexivity|].
  destruct (j =? i); [exact D | exact IH].
Qed.

Lemma findall_decimal ic r text :
  digit_groups r = true -> Forall decimal_item (findall ic r text).
Proof.
  intros G. unfold findall, finditer. apply Forall_forall. intros it H.
  apply in_map_iff in H as (m & <- & H).
  apply (finditer_from_decimal ic r text G) in H.
  destruct (ngroups r) as [|[|n]]; [exact I | exact I |].
  cbv beta iota delta [decimal_item]. apply Forall_forall.
  intros x Hx. apply in_map_iff in Hx as (i & <- & _).
  now apply group_or_empty_decimal.
Qed.

(** *** The city-and-state pattern on a run of letters *)

Lemma letter_sets c :
  letter c = true ->
  set_match true false [CRange "A" "Z"] c = true
  /\ set_match true false [CRange "a" "z"] c = true.
Proof.
  destruct c as [b0 b1 b2 b3 b4 b5 b6 b7].
  destruct b0, b1, b2, b3, b4, b5, b6, b7; vm_compute; intros H;
    first [discriminate H | split; reflexivity].
Qed.

Lemma char_eq_letter p c :
  letter p = true -> char_eq true p c = true -> letter c = true.
Proof.
  unfold char_eq, letter. intros L H. apply Ascii.eqb_eq in H. now rewrite H.
Qed.

Lemma city_state_on_letters p t :
  four_letters t = true -> matches true location_city_state (Cursor p t []) <> [].
Proof.
  destruct t as [|a [|b [|c [|d t]]]]; try discriminate. simpl four_letters.
  intros H. apply andb_prop in H as [H Hd]. apply andb_prop in H as [H Hc].
  apply andb_prop in H as [Ha Hb].
  apply letter_sets in Ha as [Ha _], Hb as [_ Hb], Hc as [Hc _], Hd as [Hd _].
  assert (I : In (Cursor (Some d) t [])
                 (matches true
                    (cat [Set_ false [CRange "A" "Z"];
                          Plus (Set_ false [CRange "a" "z"]);
                          Opt (Lit ",");
                          Star space;
                          Rep 2 (Set_ false [CRange "A" "Z"])])
                    (Cursor p (String a (String b (String c (String d t)))) []))).
  { cbn [cat].
    eapply in_cat; [apply in_set, Ha|].
    eapply in_cat; [apply in_plus, in_set, Hb|].
    eapply in_cat; [apply in_opt_skip|].
    eapply in_cat; [apply in_star_skip|].
    eapply in_rep_S; [apply in_set, Hc|].
    eapply in_rep_S; [apply in_set, Hd|].
    apply in_rep_0. }
  apply (in_group true 1) in I. unfold location_city_state.
  intros E. rewrite E in I. exact I.
Qed.

Lemma lit_four_letters (w : string) p t cs :
  four_letters w = true ->
  lit_match true w (Cursor p t cs) <> [] -> four_letters t = true.
Proof.
  destruct w as [|a [|b [|c [|d w]]]]; try discriminate. simpl four_letters.
  intros H. apply andb_prop in H as [H Hd]. apply andb_prop in H as [H Hc].
  apply andb_prop in H as [Ha Hb]. intros M.
  apply lit_match_cons in M as (a' & t1 & -> & Ea & M).
  apply lit_match_cons in M as (b' & t2 & -> & Eb & M).
  apply lit_match_cons in M as (c' & t3 & -> & Ec & M).
  apply lit_match_cons in M as (d' & t4 & -> & Ed & M).
  simpl.
  rewrite (char_eq_letter a a'), (char_eq_letter b b'), (char_eq_letter c c'),
    (char_eq_letter d d'); auto.
Qed.

(** A keyword that starts with four letters is found only where the
    city-and-state pattern matches too. *)
Lemma word_city_state (w text : string) :
  four_letters w = true ->
  search true (Lit w) text <> None ->
  search true location_city_state text <> None.
Proof.
  intros W. rewrite !search_some_iff. intros (p & t & I & M).
  exists p, t. split; [exact I|].
  apply city_state_on_letters. eapply lit_four_letters; [exact W | exact M].
Qed.

(** "on-site" is found only where "site" starts a match of the
    city-and-state pattern, three characters further. *)
Lemma on_site_city_state text :
  search true (Lit "on-site") text <> None ->
  search true location_city_state text <> None.
Proof.
  rewrite !search_some_iff. intros (p & t & I & M). cbn [matches] in M.
  apply lit_match_cons in M as (o & t1 & -> & _ & M).
  apply lit_match_cons in M as (n & t2 & -> & _ & M).
  apply lit_match_cons in M as (h & t3 & -> & _ & M).
  exists (Some h), t3. split.
  - eapply positions_trans; [exact I|]. simpl. right. right. right.
    destruct t3; now left.
  - apply city_state_on_letters.
    eapply (lit_four_letters "site"); [reflexivity | exact M].
Qed.

Lemma keyword_city_state text :
  search true (Lit "remote") text <> None
  \/ search true (Lit "hybrid") text <> None
  \/ search true (Lit "on-site") text <> None ->
  search true location_city_state text <> None.
Proof.
  intros [H|[H|H]].
  - now apply (word_city_state "remote").
  - now apply (word_city_state "hybrid").
  - now apply on_site_city_state.
Qed.

(** ** The summary generator *)

Lemma generate_summary_skills (text job_title : string) (skills : list string) :
  generate_summary text job_title skills
  = (generate_summary text job_title [] ++ Spec.skills_clause skills)%string.
Proof.
  unfold generate_summary, Spec.skills_clause.
  destruct skills; [now rewrite append_empty_r | reflexivity].
Qed.

(** C4, as the code has it: the fragments examined are the first three of
    the text; the summary joins the first two of them that qualify, falls
    back to the sentence built from the title when none of these three
    qualifies, and ends with the clause on the skills. *)
Theorem generate_summary_selects (text job_title : string) (skills : list string) :
  generate_summary text job_title skills
  = (Spec.selected_summary (firstn 3 (Spec.fragments text)) job_title
     ++ Spec.skills_clause skills)%string.
Proof.
  rewrite generate_summary_skills. f_equal.
  unfold generate_summary, Spec.selected_summary, Spec.fragments.
  rewrite (collect_fold (fun s => 20 <? String.length (strip s)) strip).
  change (fun s => 20 <? String.length (strip s)) with Spec.qualifies.
  cbn [app].
  generalize (filter Spec.qualifies (firstn 3 (Re.split false sentence_end text))).
  intros [|q qs]; [reflexivity|].
  rewrite <- firstn_map. reflexivity.
Qed.

(** C4, as stated, fails: here the fourth fragment of the text qualifies,
    and the summary still falls back to the sentence built from the title,
    where the selection over the fragments of the whole text would not. *)
Lemma generate_summary_ignores_fourth_fragment :
  Spec.fragments "a.b.c.This is a long sentence about the role"
  = ["a"; "b"; "c"; "This is a long sentence about the role"]
  /\ Spec.qualifies "This is a long sentence about the role" = true
  /\ generate_summary "a.b.c.This is a long sentence about the role" "Engineer" []
     = "Looking for a Engineer"
  /\ Spec.selected_summary
       (Spec.fragments "a.b.c.This is a long sentence about the role") "Engineer"
     = "This is a long sentence about the role".
Proof.
  vm_compute. repeat split; reflexivity.
Qed.

(** ** The seniority classifier *)

Lemma scan_keywords_existsb (level : string) (keywords : list string) (tl : string) :
  scan_keywords level keywords tl
  = if existsb (fun keyword => contains keyword tl) keywords then Some level else None.
Proof.
  induction keywords as [|k ks IH]; simpl; [reflexivity|].
  destruct (contains k tl); simpl; [reflexivity | exact IH].
Qed.

Lemma scan_levels_find (table : list (string * list string)) (text : string) :
  scan_levels table (lower text)
  = option_map fst
      (find (fun entry =>
               existsb (fun keyword => contains keyword (lower text)) (snd entry))
            table).
Proof.
  induction table as [|[level keywords] table IH]; simpl; [reflexivity|].
  rewrite scan_keywords_existsb.
  destruct (existsb _ keywords); simpl; [reflexivity | exact IH].
Qed.

(** C6: the levels are tried in the order junior, mid, senior, manager; the
    result is the first level with a keyword occurring in the lower-cased
    text, and "mid" when no level has one.  The example text has a cue of
    "junior" and one of "senior", and is classified "junior". *)
Theorem extract_seniority_level_first_match (text : string) :
  extract_seniority_level text = Spec.first_level text
  /\ map fst seniority_keywords = ["junior"; "mid"; "senior"; "manager"]
  /\ (find (Spec.has_cue text) seniority_keywords = None ->
      extract_seniority_level text = "mid")
  /\ contains "senior" (lower "junior developer, senior-level mentorship") = true
  /\ extract_seniority_level "junior developer, senior-level mentorship" = "junior".
Proof.
  assert (E : extract_seniority_level text = Spec.first_level text).
  { unfold extract_seniority_level, Spec.first_level.
    rewrite scan_levels_find. unfold Spec.has_cue.
    destruct (find _ seniority_keywords); reflexivity. }
  split; [exact E|]. split; [reflexivity|]. split.
  - intros H. rewrite E. unfold Spec.first_level. now rewrite H.
  - split; vm_compute; reflexivity.
Qed.

Lemma extract_seniority_level_first_match_witness :
  extract_seniority_level "we are hiring" = "mid".
Proof.
  apply (proj1 (proj2 (proj2 (extract_seniority_level_first_match "we are hiring")))).
  vm_compute. reflexivity.
Defined.

(** ** The skill extractor *)

Lemma skill_patterns_groupless : Forall (fun r => ngroups r = 0) skill_patterns.
Proof. repeat constructor. Qed.

(** For a pattern without group, [findall] lists the whole matches, and
    [strings_of] keeps them all. *)
Lemma findall_groupless ic r text :
  ngroups r = 0 ->
  strings_of (findall ic r text) = map m_text (finditer ic r text).
Proof.
  intros G. unfold findall. rewrite G.
  induction (finditer ic r text) as [|m ms IH]; simpl; [reflexivity | now rewrite IH].
Qed.

Lemma update_nodup (matches : list string) :
  forall skills, NoDup skills -> NoDup (update skills matches).
Proof.
  unfold update. induction matches as [|m ms IH]; intros skills H; simpl.
  - exact H.
  - apply IH. now apply set_add_nodup.
Qed.

Lemma skills_set_nodup (text : string) : NoDup (skills_set text).
Proof.
  unfold skills_set.
  assert (P : forall ps acc, NoDup acc ->
            NoDup (fold_left (fun skills pattern =>
                     update skills (strings_of (findall true pattern text))) ps acc)).
  { induction ps as [|p ps IH]; intros acc H; simpl; [exact H|].
    apply IH. now apply update_nodup. }
  assert (K : forall ks acc, NoDup acc ->
            NoDup (fold_left (fun skills skill =>
                     if contains skill (lower text)
                     then set_add string_dec (title skill) skills else skills) ks acc)).
  { induction ks as [|k ks IH]; intros acc H; simpl; [exact H|].
    apply IH. destruct (contains k (lower text)); [now apply set_add_nodup | exact H]. }
  apply K, P. constructor.
Qed.

(** C8: the list of skills has no duplicate, and two runs on the same text,
    whatever the iteration orders of their sets, return the same strings. *)
Theorem extract_skills_set_like (order1 order2 : set_order) (text : string) :
  NoDup (extract_skills order1 text)
  /\ NoDup (extract_skills order2 text)
  /\ forall skill,
       In skill (extract_skills order1 text) <-> In skill (extract_skills order2 text).
Proof.
  unfold extract_skills.
  pose proof (skills_set_nodup text) as N.
  pose proof (enumerate_perm order1 (skills_set text)) as P1.
  pose proof (enumerate_perm order2 (skills_set text)) as P2.
  split; [exact (Permutation_NoDup P1 N)|].
  split; [exact (Permutation_NoDup P2 N)|].
  intros skill. split; intros H.
  - apply (Permutation_in _ P2). apply (Permutation_in _ (Permutation_sym P1)). exact H.
  - apply (Permutation_in _ P1). apply (Permutation_in _ (Permutation_sym P2)). exact H.
Qed.

(** ** The experience extractor *)

Lemma years_loop_no_match (patterns : list regex) (text : string) :
  Forall (fun r => search true r text = None) patterns ->
  years_loop patterns text = Ok "Not specified".
Proof.
  induction 1 as [|r ps N F IH]; cbn [years_loop]; [reflexivity|].
  unfold findall, finditer. unfold search in N.
  rewrite (finditer_from_none true r text 0 None N). exact IH.
Qed.

(** C7: "5+ years of experience" gives "5+ years"; in "3-5 years experience
    required" the range pattern captures both numbers and the result is
    "3-5 years"; a text that none of the four patterns matches gives
    "Not specified". *)
Theorem extract_years_cases :
  extract_years_of_experience "5+ years of experience" = Ok "5+ years"
  /\ findall true experience_range "3-5 years experience required"
     = [ITuple ["3"; "5"]]
  /\ extract_years_of_experience "3-5 years experience required" = Ok "3-5 years"
  /\ forall text,
       Forall (fun pattern => search true pattern text = None) experience_patterns ->
       extract_years_of_experience text = Ok "Not specified".
Proof.
  split; [vm_compute; reflexivity|]. split; [vm_compute; reflexivity|].
  split; [vm_compute; reflexivity|].
  intros text H. now apply years_loop_no_match.
Qed.

Lemma extract_years_cases_witness :
  extract_years_of_experience "Python developer wanted" = Ok "Not specified".
Proof.
  apply (proj2 (proj2 (proj2 extract_years_cases))).
  repeat constructor.
Defined.

(** ** The location extractor *)

Lemma location_step r ps text m :
  search true r text = Some m -> ngroups r = 1 ->
  exists s, location_loop (r :: ps) text = Ok s.
Proof.
  intros E G. simpl. rewrite E.
  apply search_from_groups in E. unfold group. rewrite E, G. simpl.
  destruct (get_cap 1 (m_caps m)) as [[|c s]|]; simpl; eauto.
Qed.

Lemma location_skip r ps text :
  search true r text = None -> location_loop (r :: ps) text = location_loop ps text.
Proof. intros E. simpl. now rewrite E. Qed.

Lemma extract_location_ok (text : string) : exists s, extract_location text = Ok s.
Proof.
  pose proof (keyword_city_state text) as K.
  unfold extract_location, location_patterns.
  destruct (search true location_label text) as [m|] eqn:E1;
    [eapply location_step; [exact E1 | reflexivity]|].
  rewrite (location_skip _ _ _ E1).
  destruct (search true location_based_in text) as [m|] eqn:E2;
    [eapply location_step; [exact E2 | reflexivity]|].
  rewrite (location_skip _ _ _ E2).
  destruct (search true location_city_state text) as [m|] eqn:E3;
    [eapply location_step; [exact E3 | reflexivity]|].
  rewrite (location_skip _ _ _ E3).
  rewrite !location_skip; [simpl; eauto | | |];
    apply not_some_none; intros H; apply K; auto.
Qed.

(** C9: [extract_location] returns a string on every text.  Group 1 is
    asked only of a match of one of the first three patterns, which have
    it: a text in which "remote", "hybrid" or "on-site" is found, in any
    case, is a text in which the city-and-state pattern is found. *)
Theorem extract_location_returns (text : string) :
  (exists s, extract_location text = Ok s)
  /\ extract_location text <> Raise IndexError
  /\ (search true (Lit "remote") text <> None
      \/ search true (Lit "hybrid") text <> None
      \/ search true (Lit "on-site") text <> None ->
      search true location_city_state text <> None).
Proof.
  destruct (extract_location_ok text) as (s & E).
  split; [eauto|]. split; [rewrite E; discriminate|].
  apply keyword_city_state.
Qed.

Lemma extract_location_returns_witness :
  search true location_city_state "This is an ON-SITE role" <> None.
Proof.
  apply (proj2 (proj2 (extract_location_returns "This is an ON-SITE role"))).
  right. right. vm_compute. discriminate.
Defined.

(** C10, as the code has it: "great opportunity" has no location label, no
    "based in" and none of the three keywords, and its location is
    "great op": the city-and-state pattern takes "great", the space and the
    two letters after it.  The pattern is found in every text that has a
    run of four letters. *)
Theorem extract_location_letter_run :
  search true location_label "great opportunity" = None
  /\ search true location_based_in "great opportunity" = None
  /\ search true (Lit "remote") "great opportunity" = None
  /\ search true (Lit "hybrid") "great opportunity" = None
  /\ search true (Lit "on-site") "great opportunity" = None
  /\ extract_location "great opportunity" = Ok "great op"
  /\ forall text, has_letter_run text = true ->
                  search true location_city_state text <> None.
Proof.
  repeat (split; [vm_compute; reflexivity|]).
  intros text H. apply existsb_exists in H as [[p t] [I F]].
  apply search_some_iff. exists p, t. split; [exact I|].
  now apply city_state_on_letters.
Qed.

Lemma extract_location_letter_run_witness :
  search true location_city_state "great opportunity" <> None.
Proof.
  apply (proj2 (proj2 (proj2 (proj2 (proj2 (proj2 extract_location_letter_run)))))).
  vm_compute. reflexivity.
Defined.

(** C10, as stated, fails: the location of "great opportunity" is not
    "great". *)
Lemma extract_location_not_great :
  extract_location "great opportunity" <> Ok "great".
Proof. vm_compute. discriminate. Qed.

(** ** The entry points *)

(** C2, as the code has it: the empty text and a text whose stripped content
    is the placeholder give the record whose only key is [error]. *)
Theorem parse_error_record (order : set_order) (text : string) :
  text = "" \/ strip text = placeholder ->
  parse order text = Ok error_record /\ keys error_record = ["error"].
Proof.
  intros H. split; [|reflexivity]. unfold parse.
  destruct H as [H|H]; rewrite H.
  - reflexivity.
  - rewrite String.eqb_refl, orb_true_r. reflexivity.
Qed.

Lemma parse_error_record_witness :
  parse insertion_order "  {job_description} " = Ok error_record
  /\ keys error_record = ["error"].
Proof.
  apply (parse_error_record insertion_order "  {job_description} ").
  right. reflexivity.
Defined.

(** C2, as stated, fails on a text of three spaces: it is whitespace only,
    and its record has the six keys, not [error]. *)
Lemma parse_whitespace_not_error :
  all_chars isspace "   " = true
  /\ exists d, parse insertion_order "   " = Ok d
               /\ keys d = Spec.record_keys
               /\ keys d <> ["error"].
Proof.
  split; [reflexivity|].
  eexists. split; [vm_compute; reflexivity|]. split; [reflexivity | discriminate].
Qed.

(** C3: a text that contains the placeholder gets the wrapper's placeholder
    response, whatever else it holds; no field is extracted from it. *)
Theorem parse_job_description_placeholder (order : set_order) (text : string) :
  contains "{job_description}" text = true ->
  ParseJob.parse_job_description order text = Ok ParseJob.placeholder_response
  /\ keys ParseJob.placeholder_response = ["error"; "example"].
Proof.
  intros H. unfold ParseJob.parse_job_description. rewrite H. split; reflexivity.
Qed.

Lemma parse_job_description_placeholder_witness :
  ParseJob.parse_job_description insertion_order
    "Senior Engineer, 5+ years. See {job_description} for details"
  = Ok ParseJob.placeholder_response
  /\ keys ParseJob.placeholder_response = ["error"; "example"].
Proof.
  apply parse_job_description_placeholder. vm_compute. reflexivity.
Defined.

(** C1, what the code computes on the sample posting of [main]: the years,
    the location and the six skills are as expected, but the seniority level
    is "mid", not "senior": "software engineer" is a keyword of the level
    "mid", which is tried before "senior". *)
Theorem sample_posting_record (order : set_order) :
  exists skills summary,
    parse order sample_job_description
    = Ok [ ("jobTitle", VStr "Senior Software Engineer - Full Stack Development");
           ("seniorityLevel", VStr "mid");
           ("requiredSkills", VList skills);
           ("yearsOfExperience", VStr "5+ years");
           ("preferredLocation",
            VStr "San Francisco, CA (Hybrid work arrangement available)");
           ("summary", VStr summary) ]
    /\ Forall (fun skill => In skill skills)
              ["Python"; "JavaScript"; "React"; "AWS"; "Docker"; "Kubernetes"]
    /\ contains "software engineer" (lower sample_job_description) = true
    /\ extract_seniority_level sample_job_description <> "senior".
Proof.
  exists (extract_skills order sample_job_description).
  exists (generate_summary sample_job_description
            (extract_job_title sample_job_description)
            (extract_skills order sample_job_description)).
  split; [|split; [|split]].
  - unfold parse.
    assert (G : ((sample_job_description =? "")%string
                 || (strip sample_job_description =? placeholder)%string) = false)
      by (vm_compute; reflexivity).
    assert (T : extract_job_title sample_job_description
                = "Senior Software Engineer - Full Stack Development")
      by (vm_compute; reflexivity).
    assert (S : extract_seniority_level sample_job_description = "mid")
      by (vm_compute; reflexivity).
    assert (Y : extract_years_of_experience sample_job_description = Ok "5+ years")
      by (vm_compute; reflexivity).
    assert (L : extract_location sample_job_description
                = Ok "San Francisco, CA (Hybrid work arrangement available)")
      by (vm_compute; reflexivity).
    rewrite G, Y, L, S. cbn [bind]. rewrite T. reflexivity.
  - assert (E : skills_set sample_job_description
                = ["Python"; "JavaScript"; "React"; "AWS"; "Docker"; "Kubernetes";
                   "Agile"; "Java"; "Javascript"; "Aws"])
      by (vm_compute; reflexivity).
    unfold extract_skills. rewrite E.
    repeat constructor;
      apply (Permutation_in _ (enumerate_perm order _)); simpl; auto 12.
  - vm_compute. reflexivity.
  - vm_compute. discriminate.
Qed.

(** * Further properties of the extractors *)

Lemma ahead_refl st : ahead st st.
Proof. now exists "". Qed.

Lemma ahead_trans st1 st2 st3 : ahead st1 st2 -> ahead st2 st3 -> ahead st1 st3.
Proof.
  intros (x & E1) (y & E2). exists (x ++ y)%string.
  rewrite E1, E2. now rewrite append_assoc.
Qed.

Lemma ahead_length st st' :
  ahead st st' -> String.length (rest st') <= String.length (rest st).
Proof. intros (x & E). rewrite E, length_append. lia. Qed.

Lemma star_relation (R : cursor -> cursor -> Prop) body :
  (forall st, R st st) ->
  (forall a b c, R a b -> R b c -> R a c) ->
  (forall st st', In st' (body st) -> R st st') ->
  forall n st st', In st' (star body n st) -> R st st'.
Proof.
  intros Rr Rt B. induction n as [|n IH]; intros st st'; cbn [star].
  - intros [<-|[]]. apply Rr.
  - intros H. apply in_app_or in H as [H|[<-|[]]]; [|apply Rr].
    apply in_flat_map in H as (st1 & H1 & H2).
    destruct (progress st st1); [|destruct H2].
    eapply Rt; [apply B, H1 | apply IH, H2].
Qed.

Lemma rep_relation (R : cursor -> cursor -> Prop) body :
  (forall st, R st st) ->
  (forall a b c, R a b -> R b c -> R a c) ->
  (forall st st', In st' (body st) -> R st st') ->
  forall n st st', In st' (rep body n st) -> R st st'.
Proof.
  intros Rr Rt B. induction n as [|n IH]; intros st st'; cbn [rep].
  - intros [<-|[]]. apply Rr.
  - intros H. apply in_flat_map in H as (st1 & H1 & H2).
    eapply Rt; [apply B, H1 | apply IH, H2].
Qed.

Lemma lit_match_ahead ic w : forall st st',
  In st' (lit_match ic w st) -> ahead st st'.
Proof.
  induction w as [|pc w IH]; intros st st'; cbn [lit_match].
  - intros [<-|[]]. apply ahead_refl.
  - destruct st as [p [|c s] cs]; cbn [rest caps]; [intros []|].
    destruct (char_eq ic pc c); [|intros []].
    intros H. apply IH in H as (x & E). cbn [rest] in E.
    exists (String c x). cbn [rest]. simpl. now rewrite E.
Qed.

(** The matcher only moves to the right. *)
Lemma matches_ahead ic r : forall st st',
  In st' (matches ic r st) -> ahead st st'.
Proof.
  induction r as [w|neg items|r1 IH1 r2 IH2|r1 IH1 r2 IH2|r IH|r IH|r IH|n r IH|i r IH|];
    intros st st'; cbn [matches].
  - apply lit_match_ahead.
  - destruct st as [p [|c s] cs]; cbn [rest caps]; [intros []|].
    destruct (set_match ic neg items c); [|intros []].
    intros [<-|[]]. now exists (String c "").
  - intros H. apply in_flat_map in H as (st1 & H1 & H2).
    eapply ahead_trans; eauto.
  - intros H. apply in_app_or in H as [H|H]; eauto.
  - apply (star_relation ahead _ ahead_refl ahead_trans IH).
  - intros H. apply in_flat_map in H as (st1 & H1 & H2).
    eapply ahead_trans; [apply IH, H1|].
    apply (star_relation ahead _ ahead_refl ahead_trans IH _ _ _ H2).
  - intros H. apply in_app_or in H as [H|[<-|[]]]; [eauto | apply ahead_refl].
  - apply (rep_relation ahead _ ahead_refl ahead_trans IH).
  - intros H. apply in_map_iff in H as (st1 & <- & H1).
    apply IH in H1 as (x & E). now exists x.
  - destruct (xorb _ _); [|intros []]. intros [<-|[]]. apply ahead_refl.
Qed.

Lemma lit_match_shorter ic w : forall st st',
  w <> "" -> In st' (lit_match ic w st) ->
  String.length (rest st') < String.length (rest st).
Proof.
  destruct w as [|pc w]; [congruence|]. intros st st' _. cbn [lit_match].
  destruct st as [p [|c s] cs]; cbn [rest caps]; [intros []|].
  destruct (char_eq ic pc c); [|intros []].
  intros H. apply lit_match_ahead, ahead_length in H. cbn [rest] in H. simpl. lia.
Qed.

Lemma consumes_shorter ic r :
  consumes r = true ->
  forall st st', In st' (matches ic r st) ->
                 String.length (rest st') < String.length (rest st).
Proof.
  induction r as [w|neg items|r1 IH1 r2 IH2|r1 IH1 r2 IH2|r IH|r IH|r IH|n r IH|i r IH|];
    cbn [consumes]; intros C st st'; try discriminate; cbn [matches].
  - apply lit_match_shorter. intros ->. discriminate.
  - destruct st as [p [|c s] cs]; cbn [rest caps]; [intros []|].
    destruct (set_match ic neg items c); [|intros []].
    intros [<-|[]]. simpl. lia.
  - intros H. apply in_flat_map in H as (st1 & H1 & H2).
    pose proof (ahead_length _ _ (matches_ahead ic r1 _ _ H1)).
    pose proof (ahead_length _ _ (matches_ahead ic r2 _ _ H2)).
    apply orb_prop in C as [C|C].
    + specialize (IH1 C _ _ H1). lia.
    + specialize (IH2 C _ _ H2). lia.
  - apply andb_prop in C as [C1 C2].
    intros H. apply in_app_or in H as [H|H]; eauto.
  - intros H. apply in_flat_map in H as (st1 & H1 & H2).
    specialize (IH C _ _ H1).
    pose proof (ahead_length _ _
      (star_relation ahead _ ahead_refl ahead_trans (matches_ahead ic r) _ _ _ H2)).
    lia.
  - destruct n as [|n]; [discriminate|]. cbn [rep].
    intros H. apply in_flat_map in H as (st1 & H1 & H2).
    specialize (IH C _ _ H1).
    pose proof (ahead_length _ _
      (rep_relation ahead _ ahead_refl ahead_trans (matches_ahead ic r) _ _ _ H2)).
    lia.
  - intros H. apply in_map_iff in H as (st1 & <- & H1). cbn [rest]. eauto.
Qed.

Lemma get_cap_set_same i txt cs : get_cap i (set_cap i txt cs) = Some txt.
Proof. unfold set_cap. simpl. now rewrite Nat.eqb_refl. Qed.

Lemma get_cap_set_other i j txt cs :
  (j =? i) = false -> get_cap i (set_cap j txt cs) = get_cap i cs.
Proof.
  intros N. unfold set_cap. cbn [get_cap]. rewrite N.
  induction cs as [|[k t] cs IH]; [reflexivity|]. cbn [filter fst get_cap].
  destruct (k =? j) eqn:K; cbn [negb get_cap].
  - apply Nat.eqb_eq in K. subst k. rewrite N. exact IH.
  - destruct (k =? i); [reflexivity | exact IH].
Qed.

(** A pattern without group [i] leaves the group as it found it. *)
Lemma matches_keeps_cap ic i r :
  mentions i r = false ->
  forall st st', In st' (matches ic r st) -> get_cap i (caps st') = get_cap i (caps st).
Proof.
  set (R := fun st st' : cursor => get_cap i (caps st') = get_cap i (caps st)).
  assert (Rr : forall st, R st st) by reflexivity.
  assert (Rt : forall a b c, R a b -> R b c -> R a c)
    by (unfold R; intros a b c H1 H2; congruence).
  induction r as [w|neg items|r1 IH1 r2 IH2|r1 IH1 r2 IH2|r IH|r IH|r IH|n r IH|j r IH|];
    cbn [mentions]; intros M st st'; cbn [matches].
  - intros H. apply lit_match_caps in H. now rewrite H.
  - destruct (rest st) as [|c s]; [intros []|].
    destruct (set_match ic neg items c); [|intros []]. now intros [<-|[]].
  - apply orb_false_elim in M as [M1 M2].
    intros H. apply in_flat_map in H as (st1 & H1 & H2).
    rewrite (IH2 M2 _ _ H2). eauto.
  - apply orb_false_elim in M as [M1 M2].
    intros H. apply in_app_or in H as [H|H]; eauto.
  - apply (star_relation R _ Rr Rt (IH M)).
  - intros H. apply in_flat_map in H as (st1 & H1 & H2).
    apply (Rt st st1 st'); [apply (IH M), H1|].
    apply (star_relation R _ Rr Rt (IH M) _ _ _ H2).
  - intros H. apply in_app_or in H as [H|[<-|[]]]; [eauto | reflexivity].
  - apply (rep_relation R _ Rr Rt (IH M)).
  - apply orb_false_elim in M as [M1 M2].
    intros H. apply in_map_iff in H as (st1 & <- & H1). cbn [caps].
    rewrite get_cap_set_other by exact M1. eauto.
  - destruct (xorb _ _); [|intros []]. now intros [<-|[]].
Qed.

Lemma consumed_nonempty (from to : string) :
  String.length to < String.length from -> consumed from to <> "".
Proof.
  unfold consumed. intros H.
  destruct (String.length from - String.length to) as [|n] eqn:E; [lia|].
  destruct from; [simpl in H; lia | discriminate].
Qed.

Lemma captures_captured ic i r :
  captures i r = true ->
  forall st st', In st' (matches ic r st) -> captured i (caps st').
Proof.
  induction r as [w|neg items|r1 IH1 r2 IH2|r1 IH1 r2 IH2|r IH|r IH|r IH|n r IH|j r IH|];
    cbn [captures]; intros C st st'; try discriminate; cbn [matches].
  - intros H. apply in_flat_map in H as (st1 & H1 & H2).
    apply orb_prop in C as [C|C]; [|eauto].
    apply andb_prop in C as [C1 C2]. apply negb_true_iff in C2.
    destruct (IH1 C1 _ _ H1) as (g & G & N). exists g. split; [|exact N].
    now rewrite (matches_keeps_cap ic i r2 C2 _ _ H2).
  - apply andb_prop in C as [C1 C2]. apply Nat.eqb_eq in C1. subst j.
    intros H. apply in_map_iff in H as (st1 & <- & H1). cbn [caps].
    eexists. split; [apply get_cap_set_same|].
    apply consumed_nonempty. eapply consumes_shorter; eauto.
Qed.

Lemma match_at_captured ic r adv pos prev s m i :
  captures i r = true ->
  match_at ic r adv pos prev s = Some m -> captured i (m_caps m).
Proof.
  intros G. unfold match_at.
  set (st := Cursor prev s []).
  assert (I : forall l, incl l (matches ic r st) ->
              match l with
              | st' :: _ =>
                  Some (Match pos (consumed s (rest st')) (caps st') (ngroups r))
              | [] => None
              end = Some m -> captured i (m_caps m)).
  { intros [|st' l] L H; [discriminate|]. injection H as <-. cbn [m_caps].
    apply (captures_captured ic i r G st st'). apply L. now left. }
  destruct adv; apply I.
  - intros x H. now apply filter_In in H.
  - apply incl_refl.
Qed.

Lemma search_from_at ic r s : forall pos prev m,
  search_from ic r pos prev s = Some m ->
  exists pos' prev' s', match_at ic r false pos' prev' s' = Some m.
Proof.
  induction s as [|c s IH]; intros pos prev m; cbn [search_from];
    destruct (match_at ic r false pos prev _) eqn:E; intros H; try discriminate.
  - injection H as <-. eauto.
  - injection H as <-. eauto.
  - eapply IH, H.
Qed.

(** Whatever holds of every single attempt holds of every match listed. *)
Lemma finditer_from_all ic r (P : match_obj -> Prop) :
  (forall adv pos prev s m, match_at ic r adv pos prev s = Some m -> P m) ->
  forall s busy pos prev m, In m (finditer_from ic r busy pos prev s) -> P m.
Proof.
  intros A. induction s as [|c s IH]; intros busy pos prev m; cbn [finditer_from].
  - destruct busy; [|intros []].
    destruct (match_at ic r false pos prev "") as [m0|] eqn:E; [|intros []].
    destruct (String.length (m_text m0)).
    + destruct (match_at ic r true pos prev "") as [m1|] eqn:E1.
      * intros [<-|[<-|[]]]; eauto.
      * intros [<-|[]]; eauto.
    + intros [<-|[]]; eauto.
  - destruct busy; [|apply IH].
    destruct (match_at ic r false pos prev (String c s)) as [m0|] eqn:E; [|apply IH].
    destruct (String.length (m_text m0)).
    + destruct (match_at ic r true pos prev (String c s)) as [m1|] eqn:E1.
      * intros [<-|[<-|H]]; eauto.
      * intros [<-|H]; eauto.
    + intros [<-|H]; eauto.
Qed.

(** ** Stripping *)

Lemma rstrip_cons c s :
  isspace c = false -> rstrip (String c s) = String c (rstrip s).
Proof. intros H. cbn [rstrip]. rewrite H. now destruct (rstrip s). Qed.

Lemma rstrip_idempotent s : rstrip (rstrip s) = rstrip s.
Proof.
  induction s as [|c s IH]; [reflexivity|]. cbn [rstrip].
  destruct (rstrip s) as [|d r] eqn:E.
  - destruct (isspace c) eqn:C; [reflexivity|]. cbn [rstrip]. now rewrite C.
  - cbn [rstrip]. cbn [rstrip] in IH. rewrite IH. reflexivity.
Qed.

Lemma lstrip_head s :
  lstrip s = "" \/ exists c t, lstrip s = String c t /\ isspace c = false.
Proof.
  induction s as [|c s IH]; [now left|]. cbn [lstrip].
  destruct (isspace c) eqn:C; [exact IH|]. right. eauto.
Qed.

Lemma strip_idempotent s : strip (strip s) = strip s.
Proof.
  unfold strip. destruct (lstrip_head s) as [E|(c & t & E & C)]; rewrite E.
  - reflexivity.
  - rewrite (rstrip_cons c t C). cbn [lstrip]. rewrite C.
    rewrite <- (rstrip_cons c t C). apply rstrip_idempotent.
Qed.

(** ** The location extractor, further *)

(** The loop over patterns that always capture group 1: it ends at the
    first pattern found, with the stripped text of the group of its
    match. *)
Lemma location_loop_first_group ps text :
  Forall (fun r => ngroups r = 1 /\ captures 1 r = true) ps ->
  (Forall (fun r => search true r text = None) ps
   /\ location_loop ps text = Ok "Not specified")
  \/ (exists before pattern after m g,
        ps = (before ++ pattern :: after)%list
        /\ Forall (fun r => search true r text = None) before
        /\ search true pattern text = Some m
        /\ group m 1 = Ok (Some g) /\ g <> ""
        /\ location_loop ps text = Ok (strip g)).
Proof.
  induction 1 as [|r ps [G C] F IH]; [left; split; [constructor | reflexivity]|].
  cbn [location_loop]. destruct (search true r text) as [m|] eqn:E.
  - right. pose proof (search_from_groups _ _ _ _ _ _ E) as Gm.
    destruct (search_from_at _ _ _ _ _ _ E) as (pos & prev & s & A).
    apply (match_at_captured _ _ _ _ _ _ _ 1 C) in A as (g & Eg & Ng).
    assert (G1 : group m 1 = Ok (Some g)).
    { unfold group. rewrite Gm, G. cbn [Nat.eqb Nat.leb]. now rewrite Eg. }
    exists [], r, ps, m, g. rewrite G1. cbn [bind].
    split; [reflexivity|]. split; [constructor|]. split; [exact E|].
    split; [reflexivity|]. split; [exact Ng|].
    destruct g as [|c g]; [congruence | reflexivity].
  - destruct IH as [[A B]|(b & x & a & m & g & L & A & S & G1 & Ng & B)].
    + left. split; [now constructor | exact B].
    + right. exists (r :: b), x, a, m, g.
      split; [now rewrite L|]. split; [now constructor|]. auto.
Qed.

Lemma extract_location_three (text : string) :
  extract_location text = location_loop labelled_patterns text.
Proof.
  pose proof (keyword_city_state text) as K.
  unfold extract_location, location_patterns, labelled_patterns.
  cbn [location_loop].
  destruct (search true location_label text); [reflexivity|].
  destruct (search true location_based_in text); [reflexivity|].
  destruct (search true location_city_state text) eqn:E3; [reflexivity|].
  rewrite !(not_some_none (search true (Lit _) text)); [reflexivity | | |];
    intros H; apply K; auto.
Qed.

(** X5: the patterns "remote", "hybrid" and "on-site" never decide the
    location: the result is that of the three patterns with a group, and it
    is "Not specified" when none of these three is found. *)
Theorem extract_location_keywords_unused (text : string) :
  extract_location text = location_loop labelled_patterns text
  /\ (Forall (fun pattern => search true pattern text = None) labelled_patterns ->
      extract_location text = Ok "Not specified").
Proof.
  pose proof (extract_location_three text) as E.
  split; [exact E|]. intros F. rewrite E. unfold labelled_patterns in *.
  inversion F as [|? ? F1 F']; subst. inversion F' as [|? ? F2 F'']; subst.
  inversion F'' as [|? ? F3 _]; subst.
  cbn [location_loop]. now rewrite F1, F2, F3.
Qed.

Lemma extract_location_keywords_unused_witness :
  extract_location "12 + 3 = 15" = Ok "Not specified".
Proof.
  apply (proj2 (extract_location_keywords_unused "12 + 3 = 15")).
  repeat constructor.
Defined.

(** X6: when none of the three patterns with a group is found the
    location is "Not specified"; otherwise it is the stripped text of
    group 1 of the match of the first of them that is found, a group that
    is not empty: the whole match is never returned in its place.  In both
    cases the location has no whitespace at either end. *)
Theorem extract_location_first_group (text : string) :
  (exists s, extract_location text = Ok s /\ strip s = s)
  /\ ((Forall (fun pattern => search true pattern text = None) labelled_patterns
       /\ extract_location text = Ok "Not specified")
      \/ (exists before pattern after m g,
            labelled_patterns = (before ++ pattern :: after)%list
            /\ Forall (fun earlier => search true earlier text = None) before
            /\ search true pattern text = Some m
            /\ group m 1 = Ok (Some g) /\ g <> ""
            /\ extract_location text = Ok (strip g))).
Proof.
  rewrite extract_location_three.
  assert (L : Forall (fun r => ngroups r = 1 /\ captures 1 r = true) labelled_patterns)
    by (repeat constructor).
  destruct (location_loop_first_group labelled_patterns text L)
    as [[A B]|(b & x & a & m & g & E & A & S & G1 & Ng & B)].
  - split; [exists "Not specified"; now split|]. left. now split.
  - split; [exists (strip g); split; [exact B | apply strip_idempotent]|].
    right. exists b, x, a, m, g. auto 10.
Qed.

(** ** The experience extractor, further *)

Lemma string_of_uint_decimal (u : Decimal.uint) : decimal (NilEmpty.string_of_uint u).
Proof. induction u; simpl; try reflexivity; exact IHu. Qed.

Lemma of_int_number (n : N) : number (of_int n).
Proof.
  split; [|apply string_of_uint_decimal]. unfold of_int.
  destruct n as [|p]; [discriminate|]. cbn [N.to_uint].
  pose proof (Unsigned.to_uint_nonnil p) as H.
  destruct (Pos.to_uint p); [congruence| | | | | | | | | |]; discriminate.
Qed.

Lemma number_isdigit g : number g -> isdigit g = true.
Proof.
  intros [N D]. unfold isdigit. apply String.eqb_neq in N. rewrite N. cbn [negb andb].
  clear N. unfold decimal in D. induction g as [|c g IH]; [reflexivity|].
  cbn [all_chars] in *. apply andb_prop in D as [D1 D2].
  unfold isdigit_char. rewrite D1. cbn [orb andb]. auto.
Qed.

Lemma number_int g :
  number g ->
  int g = if over_limit g then Raise ValueError else Ok (int_from 0%N g).
Proof.
  intros [N D]. unfold int, over_limit. apply String.eqb_neq in N.
  rewrite N, D. reflexivity.
Qed.

Lemma isdigit_nonempty g : isdigit g = true -> g <> "".
Proof. intros H ->. discriminate. Qed.

Lemma years_found_not_sentinel s : years_found s -> s <> "Not specified".
Proof.
  assert (H : forall n t, number n -> (n ++ t)%string <> "Not specified").
  { intros [|c n] t [N D] E; [congruence|]. cbn in E. injection E as -> _.
    discriminate D. }
  intros [(n & Nn & ->)|(a & b & Na & Nb & ->)]; now apply H.
Qed.

Lemma search_from_finditer ic r s : forall pos prev m,
  search_from ic r pos prev s = Some m -> finditer_from ic r 0 pos prev s <> [].
Proof.
  induction s as [|c s IH]; intros pos prev m; cbn [search_from finditer_from];
    destruct (match_at ic r false pos prev _) as [m0|] eqn:E; try discriminate.
  - intros _. destruct (String.length (m_text m0)); [|discriminate].
    destruct (match_at ic r true pos prev ""); discriminate.
  - intros _. destruct (String.length (m_text m0)); [|discriminate].
    destruct (match_at ic r true pos prev (String c s)); discriminate.
  - apply IH.
Qed.

Lemma findall_nil_search ic r text :
  findall ic r text = [] <-> search ic r text = None.
Proof.
  unfold findall, finditer, search. split.
  - intros H. destruct (search_from ic r 0 None text) as [m|] eqn:E; [|reflexivity].
    apply search_from_finditer in E. apply map_eq_nil in H. contradiction.
  - intros H. now rewrite (finditer_from_none ic r text 0 None H).
Qed.

Lemma finditer_groups ic r text m :
  digit_groups r = true -> captures 1 r = true ->
  In m (finditer ic r text) ->
  number (group_or_empty m 1) /\ decimal (group_or_empty m 2).
Proof.
  intros D C H.
  assert (P : caps_decimal (m_caps m) /\ captured 1 (m_caps m)).
  { revert H. unfold finditer.
    apply (finditer_from_all ic r
             (fun m => caps_decimal (m_caps m) /\ captured 1 (m_caps m))).
    intros adv pos prev s m0 E. split.
    - eapply match_at_decimal; eauto.
    - eapply match_at_captured; eauto. }
  destruct P as [Pd (g & G & N)]. split; [|now apply group_or_empty_decimal].
  pose proof (group_or_empty_decimal m 1 Pd) as D1.
  unfold group_or_empty in *. rewrite G in *. now split.
Qed.

(** A pattern with one group: the loop prints the digits it captured. *)
Lemma years_step_single r ps text :
  experience_like r -> ngroups r = 1 -> findall true r text <> [] ->
  exists s, years_loop (r :: ps) text = Ok s /\ years_found s.
Proof.
  intros (D & C & _) G F. cbn [years_loop]. unfold findall in *.
  destruct (finditer true r text) as [|m ms] eqn:E; [now elim F|]. clear F.
  assert (I : In m (finditer true r text)) by (rewrite E; now left).
  destruct (finditer_groups true r text m D C I) as [N1 _].
  cbn [map]. rewrite G.
  eexists. split; [reflexivity|]. left. eauto.
Qed.

(** A pattern with two groups: the loop converts the first group, and the
    second when it is not empty; it raises when one of them is over the
    limit of the conversion, and prints the numbers otherwise. *)
Lemma years_step_range r ps text :
  experience_like r -> ngroups r = 2 -> findall true r text <> [] ->
  exists groups its,
    findall true r text = ITuple groups :: its
    /\ ((existsb over_limit groups = true
         /\ years_loop (r :: ps) text = Raise ValueError)
        \/ (existsb over_limit groups = false
            /\ exists s, years_loop (r :: ps) text = Ok s /\ years_found s)).
Proof.
  intros (D & C & _) G F. cbn [years_loop]. unfold findall in *.
  destruct (finditer true r text) as [|m ms] eqn:E; [now elim F|]. clear F.
  assert (I : In m (finditer true r text)) by (rewrite E; now left).
  destruct (finditer_groups true r text m D C I) as [N1 D2].
  cbn [map]. rewrite G. cbn [seq map].
  set (g1 := group_or_empty m 1) in *. set (g2 := group_or_empty m 2) in *.
  exists [g1; g2]. eexists. split; [reflexivity|].
  cbn [filter existsb]. rewrite (number_isdigit _ N1), orb_false_r.
  destruct (isdigit g2) eqn:X.
  - assert (N2 : number g2) by (split; [now apply isdigit_nonempty | exact D2]).
    cbn [ints]. rewrite (number_int _ N1), (number_int _ N2).
    destruct (over_limit g1); [left; split; reflexivity|].
    destruct (over_limit g2); [left; split; reflexivity|]. cbn [bind orb].
    right. split; [reflexivity|]. eexists. split; [reflexivity|]. right.
    exists (of_int (int_from 0%N g1)), (of_int (int_from 0%N g2)).
    split; [apply of_int_number|]. split; [apply of_int_number | reflexivity].
  - assert (Z : over_limit g2 = false).
    { destruct g2 as [|c g2]; [reflexivity|]. exfalso.
      assert (N2 : number (String c g2)) by (split; [discriminate | exact D2]).
      apply number_isdigit in N2. congruence. }
    rewrite Z, orb_false_r. cbn [ints]. rewrite (number_int _ N1).
    destruct (over_limit g1); [left; split; reflexivity|]. cbn [bind].
    right. split; [reflexivity|]. eexists. split; [reflexivity|]. left.
    exists (of_int (int_from 0%N g1)).
    split; [apply of_int_number | reflexivity].
Qed.

Lemma years_loop_singles ps text :
  Forall (fun r => experience_like r /\ ngroups r = 1) ps ->
  (Forall (fun r => search true r text = None) ps
   /\ years_loop ps text = Ok "Not specified")
  \/ (Exists (fun r => search true r text <> None) ps
      /\ exists s, years_loop ps text = Ok s /\ years_found s).
Proof.
  induction 1 as [|r ps [L G] F IH]; [left; split; [constructor | reflexivity]|].
  destruct (findall true r text) as [|it its] eqn:E.
  - assert (S : search true r text = None) by (apply findall_nil_search, E).
    cbn [years_loop]. rewrite E.
    destruct IH as [[A B]|[A B]]; [left | right]; split; auto.
  - right. split.
    + left. intros S. apply findall_nil_search in S. congruence.
    + apply years_step_single; [exact L | exact G | congruence].
Qed.

Lemma experience_patterns_like : Forall experience_like experience_patterns.
Proof.
  unfold experience_patterns.
  repeat (apply Forall_cons; [split; [reflexivity|]; split; [reflexivity|];
                              first [left; reflexivity | right; reflexivity]|]).
  apply Forall_nil.
Qed.

(** The three ends of the experience loop. *)
Lemma extract_years_outcome (text : string) :
  (years_overflow text = true
   /\ search true experience_range text <> None
   /\ extract_years_of_experience text = Raise ValueError)
  \/ (years_overflow text = false
      /\ Forall (fun r => search true r text = None) experience_patterns
      /\ extract_years_of_experience text = Ok "Not specified")
  \/ (years_overflow text = false
      /\ Exists (fun r => search true r text <> None) experience_patterns
      /\ exists s, extract_years_of_experience text = Ok s /\ years_found s).
Proof.
  pose proof experience_patterns_like as L.
  unfold extract_years_of_experience, years_overflow, first_range_groups,
    experience_patterns in *.
  inversion L as [|? ? Lr Ls]; subst.
  destruct (findall true experience_range text) as [|it its] eqn:E.
  - assert (S : search true experience_range text = None)
      by (apply findall_nil_search, E).
    right. cbn [existsb years_loop]. rewrite E.
    destruct (years_loop_singles
                [experience_plus; experience_minimum; experience_at_least] text)
      as [[A B]|[A B]].
    + repeat (apply Forall_cons; [split; [|reflexivity]|]); try apply Forall_nil;
        eapply Forall_forall; try exact Ls; simpl; auto.
    + left. split; [reflexivity|]. split; [now constructor | exact B].
    + right. split; [reflexivity|]. split; [now right | exact B].
  - assert (S : search true experience_range text <> None)
      by (intros S; apply findall_nil_search in S; congruence).
    destruct (years_step_range experience_range
                [experience_plus; experience_minimum; experience_at_least] text
                Lr eq_refl)
      as (groups & its' & E' & [[O R]|[O R]]); [congruence| |].
    + left. rewrite E' in E. injection E as <- _. auto.
    + right. right. rewrite E' in E. injection E as <- _.
      split; [exact O|]. split; [now left | exact R].
Qed.

(** X3: the experience extractor raises, a [ValueError], exactly when the
    first match of the range pattern captured a number of more than 4300
    digits; otherwise its result is "Not specified", "N+ years" or
    "N-M years" with N and M written in decimal digits, at least one
    each. *)
Theorem extract_years_format (text : string) :
  (extract_years_of_experience text = Raise ValueError
   <-> years_overflow text = true)
  /\ extract_years_of_experience text <> Raise IndexError
  /\ (years_overflow text = false ->
      exists s, extract_years_of_experience text = Ok s
                /\ (s = "Not specified" \/ years_found s)).
Proof.
  destruct (extract_years_outcome text)
    as [(O & _ & E)|[(O & _ & E)|(O & _ & s & E & Y)]]; rewrite E, O.
  - split; [tauto|]. split; [discriminate|]. discriminate.
  - split; [split; discriminate|]. split; [discriminate|]. eauto.
  - split; [split; discriminate|]. split; [discriminate|]. eauto.
Qed.

Lemma extract_years_format_witness :
  exists s, extract_years_of_experience "007 years of experience" = Ok s
            /\ (s = "Not specified" \/ years_found s).
Proof.
  apply (proj2 (proj2 (extract_years_format "007 years of experience"))).
  vm_compute. reflexivity.
Defined.

(** X4: the result is "Not specified" exactly when none of the four
    experience patterns is found in the text. *)
Theorem extract_years_not_specified_iff (text : string) :
  extract_years_of_experience text = Ok "Not specified"
  <-> Forall (fun pattern => search true pattern text = None) experience_patterns.
Proof.
  destruct (extract_years_outcome text)
    as [(O & S & E)|[(O & F & E)|(O & A & s & E & Y)]]; rewrite E.
  - split; [discriminate|]. intros F. exfalso. apply S.
    apply Forall_inv in F. exact F.
  - split; auto.
  - split.
    + intros H. injection H as ->. now apply years_found_not_sentinel in Y.
    + intros F. exfalso. apply Exists_exists in A as (r & I & N).
      rewrite Forall_forall in F. auto.
Qed.

(** ** The seniority classifier, further *)

Lemma extract_seniority_level_cues (text : string) :
  extract_seniority_level text
  = if cue "junior" text then "junior"
    else if cue "mid" text then "mid"
    else if cue "senior" text then "senior"
    else if cue "manager" text then "manager"
    else "mid".
Proof.
  unfold extract_seniority_level. rewrite scan_levels_find.
  unfold cue, Spec.has_cue, seniority_keywords. cbn [find fst snd String.eqb Ascii.eqb Bool.eqb].
  repeat match goal with
         | |- context [existsb ?f ?l] => destruct (existsb f l); cbn [option_map fst]
         end; reflexivity.
Qed.

(** X1: the level is one of junior, mid, senior and manager. *)
Theorem extract_seniority_level_closed (text : string) :
  In (extract_seniority_level text) ["junior"; "mid"; "senior"; "manager"].
Proof.
  rewrite extract_seniority_level_cues.
  destruct (cue "junior" text), (cue "mid" text), (cue "senior" text),
    (cue "manager" text); simpl; auto.
Qed.

(** X2: "junior" is returned exactly when a junior keyword occurs;
    "senior" exactly when a senior keyword occurs and no junior or mid
    keyword does; "manager" exactly when a manager keyword occurs and no
    keyword of the three levels before it does. *)
Theorem extract_seniority_level_shadowing (text : string) :
  (extract_seniority_level text = "junior" <-> cue "junior" text = true)
  /\ (extract_seniority_level text = "senior"
      <-> cue "junior" text = false /\ cue "mid" text = false
          /\ cue "senior" text = true)
  /\ (extract_seniority_level text = "manager"
      <-> cue "junior" text = false /\ cue "mid" text = false
          /\ cue "senior" text = false /\ cue "manager" text = true).
Proof.
  rewrite extract_seniority_level_cues.
  destruct (cue "junior" text), (cue "mid" text), (cue "senior" text),
    (cue "manager" text); repeat split; intros; try discriminate; intuition discriminate.
Qed.

(** ** The title extractor *)

Lemma all_chars_lstrip p s : all_chars p s = true -> all_chars p (lstrip s) = true.
Proof.
  induction s as [|c s IH]; [auto|]. cbn [lstrip all_chars]. intros H.
  destruct (isspace c); [apply andb_prop in H as [_ H]; auto | exact H].
Qed.

Lemma all_chars_rstrip p s : all_chars p s = true -> all_chars p (rstrip s) = true.
Proof.
  induction s as [|c s IH]; [auto|]. cbn [rstrip all_chars]. intros H.
  apply andb_prop in H as [H1 H2]. specialize (IH H2).
  destruct (rstrip s) as [|d r].
  - destruct (isspace c); [reflexivity|]. cbn [all_chars]. now rewrite H1.
  - cbn [all_chars] in *. now rewrite H1.
Qed.

Lemma all_chars_strip p s : all_chars p s = true -> all_chars p (strip s) = true.
Proof. intros H. unfold strip. now apply all_chars_rstrip, all_chars_lstrip. Qed.

Lemma split_no_sep sep s :
  Forall (fun piece => all_chars (fun c => negb (Ascii.eqb c sep)) piece = true)
         (Str.split sep s).
Proof.
  induction s as [|c s IH]; cbn [Str.split]; [repeat constructor|].
  destruct (Ascii.eqb c sep) eqn:E; [constructor; [reflexivity | exact IH]|].
  destruct (Str.split sep s) as [|h t]; [repeat constructor; cbn; now rewrite E|].
  inversion IH as [|? ? H1 H2]; subst. constructor; [|exact H2].
  cbn [all_chars]. now rewrite E, H1.
Qed.

Lemma Forall_take {A} (P : A -> Prop) n : forall l, Forall P l -> Forall P (firstn n l).
Proof.
  induction n as [|n IH]; intros l H; [constructor|].
  destruct H; cbn [firstn]; constructor; auto.
Qed.

Lemma title_loop_cases (lines : list string) :
  (title_loop lines = "Position not clearly specified"
   /\ Forall (fun line => has_role (strip line) = false) lines)
  \/ (exists before line after,
        lines = (before ++ line :: after)%list
        /\ Forall (fun line => has_role (strip line) = false) before
        /\ has_role (strip line) = true
        /\ title_loop lines = strip line).
Proof.
  induction lines as [|l ls IH]; [left; split; [reflexivity | constructor]|].
  cbn [title_loop]. fold (has_role (strip l)).
  destruct (has_role (strip l)) eqn:E.
  - right. exists [], l, ls.
    split; [reflexivity|]. split; [constructor|]. split; [exact E | reflexivity].
  - destruct IH as [[T F]|(b & x & a & L & F & R & T)].
    + left. split; [exact T | now constructor].
    + right. exists (l :: b), x, a.
      split; [now rewrite L|]. split; [now constructor|]. split; [exact R | exact T].
Qed.

(** X7: the title is the first of the first five lines that, stripped and
    lower-cased, has a role word, stripped; without such a line it is the
    sentinel.  It has no whitespace at either end and no line feed. *)
Theorem extract_job_title_first_role_line (text : string) :
  let lines := firstn 5 (Str.split LF text) in
  let title := extract_job_title text in
  strip title = title
  /\ no_line_feed title = true
  /\ ((title = "Position not clearly specified"
       /\ Forall (fun line => has_role (strip line) = false) lines)
      \/ (exists before line after,
            lines = (before ++ line :: after)%list
            /\ Forall (fun line => has_role (strip line) = false) before
            /\ has_role title = true
            /\ title = strip line)).
Proof.
  cbv zeta. unfold extract_job_title.
  pose proof (split_no_sep LF text) as N.
  apply (Forall_take _ 5) in N.
  destruct (title_loop_cases (firstn 5 (Str.split LF text)))
    as [[T F]|(b & x & a & L & F & R & T)]; rewrite T.
  - split; [reflexivity|]. split; [reflexivity|]. left. split; [reflexivity | exact F].
  - split; [apply strip_idempotent|]. split.
    + rewrite L in N. apply Forall_app in N as [_ N]. apply Forall_inv in N.
      now apply all_chars_strip.
    + right. exists b, x, a.
      split; [exact L|]. split; [exact F|]. split; [exact R | reflexivity].
Qed.

(** ** The summary generator, further *)

Lemma length_join_head sep p ps :
  String.length p <= String.length (join sep (p :: ps)).
Proof.
  destruct ps; cbn [join]; [lia|]. rewrite length_append. lia.
Qed.

(** X8: the summary is never empty: it has at least the 14 characters of
    "Looking for a ". *)
Theorem generate_summary_not_empty (text job_title : string) (skills : list string) :
  14 <= String.length (generate_summary text job_title skills).
Proof.
  rewrite generate_summary_skills, length_append.
  enough (14 <= String.length (generate_summary text job_title [])) by lia.
  unfold generate_summary.
  rewrite (collect_fold (fun s => 20 <? String.length (strip s)) strip).
  destruct (filter _ _) as [|q qs] eqn:E; cbn [map app].
  - change (14 <= String.length ("Looking for a " ++ job_title)).
    rewrite length_append. simpl. lia.
  - assert (Q : In q (filter (fun s => 20 <? String.length (strip s))
                        (firstn 3 (Re.split false sentence_end text))))
      by (rewrite E; now left).
    apply filter_In in Q as [_ Q]. apply Nat.ltb_lt in Q.
    rewrite !app_nil_l. cbn [firstn].
    eapply Nat.le_trans; [|apply length_join_head]. lia.
Qed.

(** ** The skill extractor, further *)

Lemma update_in skills l s :
  In s (update skills l) <-> In s skills \/ In s l.
Proof.
  unfold update. revert skills. induction l as [|x l IH]; intros skills; cbn [fold_left].
  - simpl. tauto.
  - rewrite IH. split.
    + intros [H|H]; [apply set_add_elim in H as [->|H]|]; simpl; auto.
    + intros [H|[->|H]].
      * left. now apply set_add_intro1.
      * left. now apply set_add_intro2.
      * now right.
Qed.

Lemma skills_set_in (text s : string) :
  In s (skills_set text) <->
  (exists pattern, In pattern skill_patterns
                   /\ In s (strings_of (findall true pattern text)))
  \/ (exists skill, In skill skill_keywords
                    /\ contains skill (lower text) = true /\ s = title skill).
Proof.
  unfold skills_set.
  assert (P : forall ps acc,
            In s (fold_left (fun skills pattern =>
                    update skills (strings_of (findall true pattern text))) ps acc)
            <-> In s acc \/ exists pattern, In pattern ps
                              /\ In s (strings_of (findall true pattern text))).
  { induction ps as [|p ps IH]; intros acc; cbn [fold_left].
    - split; [auto | intros [H|(p & [] & _)]; exact H].
    - rewrite IH, update_in. split.
      + intros [[H|H]|(q & I & H)]; [auto | right; exists p; simpl; auto
                                    | right; exists q; simpl; auto].
      + intros [H|(q & [<-|I] & H)]; [auto | auto | right; eauto]. }
  assert (K : forall ks acc,
            In s (fold_left (fun skills skill =>
                    if contains skill (lower text)
                    then set_add string_dec (title skill) skills else skills) ks acc)
            <-> In s acc \/ exists skill, In skill ks
                              /\ contains skill (lower text) = true /\ s = title skill).
  { induction ks as [|k ks IH]; intros acc; cbn [fold_left].
    - split; [auto | intros [H|(k & [] & _)]; exact H].
    - rewrite IH. destruct (contains k (lower text)) eqn:E.
      + split.
        * intros [H|(q & I & H)]; [|right; exists q; simpl; tauto].
          apply set_add_elim in H as [->|H]; [right; exists k; simpl; auto | auto].
        * intros [H|(q & [<-|I] & C & H)].
          -- left. now apply set_add_intro1.
          -- left. apply set_add_intro2. exact H.
          -- right. eauto.
      + split.
        * intros [H|(q & I & H)]; [auto | right; exists q; simpl; tauto].
        * intros [H|(q & [<-|I] & C & H)]; [auto | congruence | right; eauto]. }
  rewrite K, P. simpl. tauto.
Qed.

Lemma in_skill_patterns_groupless p : In p skill_patterns -> ngroups p = 0.
Proof. intros H. pose proof skill_patterns_groupless as F. rewrite Forall_forall in F. auto. Qed.

(** X9: the skills returned are the texts matched by the six skill
    patterns, as written in the text, and the title-cased keywords that
    occur in the lower-cased text; nothing else. *)
Theorem extract_skills_sources (order : set_order) (text skill : string) :
  In skill (extract_skills order text) <->
  (exists pattern m, In pattern skill_patterns
                     /\ In m (finditer true pattern text) /\ skill = m_text m)
  \/ (exists keyword, In keyword skill_keywords
                      /\ contains keyword (lower text) = true
                      /\ skill = title keyword).
Proof.
  unfold extract_skills.
  assert (O : In skill (order (skills_set text)) <-> In skill (skills_set text)).
  { pose proof (enumerate_perm order (skills_set text)) as P. split.
    - apply Permutation_in. now apply Permutation_sym.
    - now apply Permutation_in. }
  rewrite O, skills_set_in. split.
  - intros [(p & I & H)|H]; [left | now right].
    rewrite (findall_groupless true p text (in_skill_patterns_groupless p I)) in H.
    apply in_map_iff in H as (m & <- & H). eauto.
  - intros [(p & m & I & H & ->)|H]; [left | now right].
    exists p. split; [exact I|].
    rewrite (findall_groupless true p text (in_skill_patterns_groupless p I)).
    now apply in_map.
Qed.

Lemma words_match l : forall st st',
  In st' (matches true (words l) st) ->
  exists w, In w l /\ In st' (lit_match true w st).
Proof.
  unfold words. induction l as [|w l IH]; intros st st'.
  - cbn [map alt matches]. destruct (rest st); [intros []|]. cbn. intros [].
  - destruct l as [|w' l].
    + cbn [map alt matches]. intros H. exists w. split; [now left | exact H].
    + change (alt (map Lit (w :: w' :: l))) with (Alt (Lit w) (alt (map Lit (w' :: l)))).
      cbn [matches]. intros H. apply in_app_or in H as [H|H].
      * exists w. split; [now left | exact H].
      * apply IH in H as (x & I & H). exists x. split; [now right | exact H].
Qed.

Lemma lit_match_lower w : forall st st',
  In st' (lit_match true w st) ->
  exists x, rest st = (x ++ rest st')%string /\ lower x = lower w.
Proof.
  induction w as [|pc w IH]; intros st st'; cbn [lit_match].
  - intros [<-|[]]. now exists "".
  - destruct st as [p [|c s] cs]; cbn [rest caps]; [intros []|].
    destruct (char_eq true pc c) eqn:E; [|intros []].
    intros H. apply IH in H as (x & E1 & E2). cbn [rest] in E1.
    exists (String c x). split; [simpl; now rewrite E1|].
    unfold char_eq in E. apply Ascii.eqb_eq in E. cbn [lower]. now rewrite E, E2.
Qed.

Lemma word_boundary_same ic st st' : In st' (matches ic WordB st) -> st' = st.
Proof. cbn [matches]. destruct (xorb _ _); [|intros []]. now intros [<-|[]]. Qed.

Lemma word_pattern_match l adv pos prev s m :
  match_at true (word_pattern l) adv pos prev s = Some m ->
  In (lower (m_text m)) (map lower l).
Proof.
  unfold match_at. set (st := Cursor prev s []).
  assert (I : forall st', In st' (matches true (word_pattern l) st) ->
              In (lower (consumed s (rest st'))) (map lower l)).
  { intros st' H. unfold word_pattern in H. cbn [cat matches] in H.
    apply in_flat_map in H as (st1 & H1 & H). apply (word_boundary_same true) in H1. subst st1.
    apply in_flat_map in H as (st2 & H2 & H). apply (word_boundary_same true) in H. subst st'.
    apply words_match in H2 as (w & Iw & H2).
    apply lit_match_lower in H2 as (x & E1 & E2). unfold st in E1. cbn [rest] in E1.
    rewrite E1, consumed_append, E2. now apply in_map. }
  assert (J : forall ends, incl ends (matches true (word_pattern l) st) ->
              match ends with
              | st' :: _ =>
                  Some (Match pos (consumed s (rest st')) (caps st')
                              (ngroups (word_pattern l)))
              | [] => None
              end = Some m -> In (lower (m_text m)) (map lower l)).
  { intros [|st' ends] L H; [discriminate|]. injection H as <-. cbn [m_text].
    apply I, L. now left. }
  destruct adv; apply J.
  - intros x H. now apply filter_In in H.
  - apply incl_refl.
Qed.

Lemma in_list_In w l : in_list w l = true -> In w l.
Proof.
  unfold in_list. intros H. apply existsb_exists in H as (x & I & E).
  apply String.eqb_eq in E. now subst.
Qed.

Lemma word_pattern_vocabulary l text m :
  forallb (fun w => in_list w skill_vocabulary) (map lower l) = true ->
  In m (finditer true (word_pattern l) text) ->
  In (lower (m_text m)) skill_vocabulary.
Proof.
  intros V H.
  assert (W : In (lower (m_text m)) (map lower l)).
  { revert H. unfold finditer.
    apply (finditer_from_all true (word_pattern l)
             (fun m => In (lower (m_text m)) (map lower l))).
    intros adv pos prev s m0. apply word_pattern_match. }
  rewrite forallb_forall in V. apply in_list_In. auto.
Qed.

(** X10: on a text of code points below 256, every skill returned is, in
    lower case, a word of the fixed vocabulary.  (Beyond them the property
    is lost: with [re.IGNORECASE] the code points U+017F and U+212A stand
    for "s" and "k" and are not changed by [lower].) *)
Theorem extract_skills_vocabulary (order : set_order) (text skill : string) :
  In skill (extract_skills order text) -> In (lower skill) skill_vocabulary.
Proof.
  unfold extract_skills. intros H.
  assert (S : In skill (skills_set text)).
  { revert H. apply Permutation_in, Permutation_sym.
    exact (enumerate_perm order (skills_set text)). }
  clear H. destruct (proj1 (skills_set_in text skill) S)
    as [(p & I & H)|(k & I & _ & ->)].
  - rewrite (findall_groupless true p text (in_skill_patterns_groupless p I)) in H.
    apply in_map_iff in H as (m & <- & H).
    unfold skill_patterns in I.
    repeat (destruct I as [<-|I];
            [refine (word_pattern_vocabulary _ text m _ H); reflexivity|]).
    destruct I.
  - assert (F : forallb (fun k => in_list (lower (title k)) skill_vocabulary)
                        skill_keywords = true) by reflexivity.
    rewrite forallb_forall in F. apply in_list_In. exact (F k I).
Qed.

Lemma extract_skills_vocabulary_witness :
  In (lower "Node.Js") skill_vocabulary.
Proof.
  apply (extract_skills_vocabulary insertion_order "We use node.js daily" "Node.Js").
  vm_compute. auto.
Defined.

(** ** The entry points, further *)

Lemma prefix_append n y : prefix n (n ++ y) = true.
Proof.
  induction n as [|c n IH]; [now destruct y|]. cbn [prefix append].
  destruct (ascii_dec c c); [exact IH | congruence].
Qed.

Lemma contains_middle n y : forall x, contains n (x ++ n ++ y) = true.
Proof.
  induction x as [|c x IH].
  - cbn [append]. destruct (n ++ y)%string eqn:E; cbn [contains];
      rewrite <- E, prefix_append; reflexivity.
  - cbn [append contains]. rewrite IH. apply orb_true_r.
Qed.

Lemma lstrip_suffix s : exists x, s = (x ++ lstrip s)%string.
Proof.
  induction s as [|c s (x & IH)]; [now exists ""|]. cbn [lstrip].
  destruct (isspace c); [|now exists ""].
  exists (String c x). simpl. now rewrite <- IH.
Qed.

Lemma rstrip_prefix s : exists y, s = (rstrip s ++ y)%string.
Proof.
  induction s as [|c s (y & IH)]; [now exists ""|]. cbn [rstrip].
  destruct (rstrip s) as [|d r].
  - destruct (isspace c); [now exists (String c s)|].
    exists y. simpl. now rewrite IH at 1.
  - exists y. simpl. now rewrite IH at 1.
Qed.

(** The stripped text occurs in the text. *)
Lemma contains_strip s : contains (strip s) s = true.
Proof.
  unfold strip. destruct (lstrip_suffix s) as (x & E).
  destruct (rstrip_prefix (lstrip s)) as (y & F).
  rewrite E at 2. rewrite F at 2. apply contains_middle.
Qed.

(** The three ends of [parse]. *)
Lemma parse_cases (order : set_order) (text : string) :
  ((text = "" \/ strip text = placeholder) /\ parse order text = Ok error_record)
  \/ (text <> "" /\ strip text <> placeholder /\ years_overflow text = true
      /\ parse order text = Raise ValueError)
  \/ (text <> "" /\ strip text <> placeholder /\ years_overflow text = false
      /\ exists d, parse order text = Ok d /\ keys d = Spec.record_keys).
Proof.
  unfold parse.
  destruct (text =? "")%string eqn:E1.
  { left. apply String.eqb_eq in E1. auto. }
  destruct (strip text =? placeholder)%string eqn:E2.
  { left. apply String.eqb_eq in E2. auto. }
  right. apply String.eqb_neq in E1, E2. cbn [orb].
  destruct (extract_years_outcome text)
    as [(O & _ & E)|[(O & _ & E)|(O & _ & y & E & _)]]; rewrite E; cbn [bind].
  - left. auto.
  - right. destruct (extract_location_ok text) as (l & ->). cbn [bind].
    repeat split; auto. eexists. split; reflexivity.
  - right. destruct (extract_location_ok text) as (l & ->). cbn [bind].
    repeat split; auto. eexists. split; reflexivity.
Qed.




(** X12: [parse] returns the error record exactly on the empty text and on
    a text whose stripped content is the placeholder; it raises a
    [ValueError] exactly on another text in which the first match of the
    range pattern captured a number of more than 4300 digits; it raises an
    [IndexError] on no text. *)
Theorem parse_outcomes (order : set_order) (text : string) :
  (parse order text = Ok error_record <-> text = "" \/ strip text = placeholder)
  /\ (parse order text = Raise ValueError
      <-> text <> "" /\ strip text <> placeholder /\ years_overflow text = true)
  /\ parse order text <> Raise IndexError.
Proof.
  destruct (parse_cases order text)
    as [[G E]|[(N1 & N2 & O & E)|(N1 & N2 & O & d & E & K)]]; rewrite E.
  - split; [tauto|]. split; [|discriminate]. split; [discriminate | tauto].
  - split; [|split; [tauto | discriminate]]. split; [discriminate | tauto].
  - split; [|split; [|discriminate]].
    + split; [|tauto]. intros H. injection H as ->. discriminate K.
    + split; [discriminate|]. intros (_ & _ & O'). congruence.
Qed.

Lemma parse_outcomes_witness : parse insertion_order "" = Ok error_record.
Proof.
  apply (proj1 (parse_outcomes insertion_order "")). left. reflexivity.
Defined.

(** X13: the four ends of the wrapper.  A text with the placeholder gets
    the placeholder response and the empty text the parser's error record;
    on another text the wrapper raises a [ValueError] when the first match
    of the range pattern captured a number of more than 4300 digits, and
    returns a record with the six keys otherwise.  Through the wrapper, the
    parser's own placeholder test decides nothing. *)
Theorem parse_job_description_cases (order : set_order) (text : string) :
  (contains placeholder text = true
   /\ ParseJob.parse_job_description order text = Ok ParseJob.placeholder_response)
  \/ (text = ""
      /\ ParseJob.parse_job_description order text = Ok error_record)
  \/ (text <> "" /\ contains placeholder text = false
      /\ years_overflow text = true
      /\ ParseJob.parse_job_description order text = Raise ValueError)
  \/ (text <> "" /\ contains placeholder text = false
      /\ years_overflow text = false
      /\ exists d, ParseJob.parse_job_description order text = Ok d
                   /\ keys d = Spec.record_keys).
Proof.
  unfold ParseJob.parse_job_description.
  change "{job_description}" with placeholder.
  destruct (contains placeholder text) eqn:C.
  { left. now split. }
  right.
  destruct (parse_cases order text)
    as [[[G|G] E]|[(N1 & N2 & O & E)|(N1 & N2 & O & d & E & K)]]; rewrite E.
  - left. now split.
  - exfalso. pose proof (contains_strip text) as S. rewrite G in S. congruence.
  - right. left. auto.
  - right. right. repeat split; auto. exists d. now split.
Qed.

(** ** A skill listed in two casings *)

Lemma lower_append a b : lower (a ++ b) = (lower a ++ lower b)%string.
Proof. induction a as [|c a IH]; simpl; [reflexivity | now rewrite IH]. Qed.

Lemma match_at_text ic r adv pos prev s m :
  match_at ic r adv pos prev s = Some m -> exists y, s = (m_text m ++ y)%string.
Proof.
  unfold match_at. set (st := Cursor prev s []).
  assert (J : forall ends, incl ends (matches ic r st) ->
              match ends with
              | st' :: _ =>
                  Some (Match pos (consumed s (rest st')) (caps st') (ngroups r))
              | [] => None
              end = Some m -> exists y, s = (m_text m ++ y)%string).
  { intros [|st' ends] L H; [discriminate|]. injection H as <-. cbn [m_text].
    assert (A : ahead st st') by (apply (matches_ahead ic r), L; now left).
    destruct A as (x & E). unfold st in E. cbn [rest] in E.
    exists (rest st'). rewrite E. now rewrite consumed_append. }
  destruct adv; apply J.
  - intros x H. now apply filter_In in H.
  - apply incl_refl.
Qed.

(** Every match listed is a piece of the text. *)
Lemma finditer_from_text ic r s : forall busy pos prev m,
  In m (finditer_from ic r busy pos prev s) ->
  exists x y, s = (x ++ m_text m ++ y)%string.
Proof.
  assert (Here : forall adv pos prev s m,
            match_at ic r adv pos prev s = Some m ->
            exists x y, s = (x ++ m_text m ++ y)%string).
  { intros adv pos prev s0 m H. apply match_at_text in H as (y & E). now exists "", y. }
  assert (Next : forall c s m,
            (exists x y, s = (x ++ m_text m ++ y)%string) ->
            exists x y, String c s = (x ++ m_text m ++ y)%string).
  { intros c s0 m (x & y & E). exists (String c x), y. simpl. now rewrite <- E. }
  induction s as [|c s IH]; intros busy pos prev m; cbn [finditer_from].
  - destruct busy; [|intros []].
    destruct (match_at ic r false pos prev "") as [m0|] eqn:E; [|intros []].
    destruct (String.length (m_text m0)).
    + destruct (match_at ic r true pos prev "") as [m1|] eqn:E1.
      * intros [<-|[<-|[]]]; eauto.
      * intros [<-|[]]; eauto.
    + intros [<-|[]]; eauto.
  - destruct busy; [|intros H; apply Next; eapply IH, H].
    destruct (match_at ic r false pos prev (String c s)) as [m0|] eqn:E;
      [|intros H; apply Next; eapply IH, H].
    destruct (String.length (m_text m0)).
    + destruct (match_at ic r true pos prev (String c s)) as [m1|] eqn:E1.
      * intros [<-|[<-|H]]; [eauto | eauto | apply Next; eapply IH, H].
      * intros [<-|H]; [eauto | apply Next; eapply IH, H].
    + intros [<-|H]; [eauto | apply Next; eapply IH, H].
Qed.

(** X11: a match of a skill pattern whose lower-cased text is a keyword
    puts two entries in the list: the text as written and the keyword in
    title case. *)
Theorem extract_skills_both_casings (order : set_order) (text : string)
    (pattern : regex) (m : match_obj) :
  In pattern skill_patterns ->
  In m (finditer true pattern text) ->
  In (lower (m_text m)) skill_keywords ->
  In (m_text m) (extract_skills order text)
  /\ In (title (lower (m_text m))) (extract_skills order text).
Proof.
  intros Ip Im Ik. unfold extract_skills.
  assert (O : forall s, In s (skills_set text) -> In s (order (skills_set text)))
    by (intros s; apply Permutation_in, enumerate_perm).
  split; apply O, skills_set_in.
  - left. exists pattern. split; [exact Ip|].
    rewrite (findall_groupless true pattern text (in_skill_patterns_groupless _ Ip)).
    now apply in_map.
  - right. exists (lower (m_text m)). split; [exact Ik|]. split; [|reflexivity].
    apply finditer_from_text in Im as (x & y & E).
    rewrite E, !lower_append. apply contains_middle.
Qed.

Lemma extract_skills_both_casings_witness :
  In "AWS" (extract_skills insertion_order "Experience with AWS cloud")
  /\ In "Aws" (extract_skills insertion_order "Experience with AWS cloud").
Proof.
  apply (extract_skills_both_casings insertion_order "Experience with AWS cloud"
           (word_pattern ["AWS"; "Azure"; "GCP"; "Docker"; "Kubernetes"; "Git";
                          "Jenkins"; "CI/CD"])
           (Match 16 "AWS" [] 0)).
  - vm_compute. auto.
  - vm_compute. auto.
  - vm_compute. auto 20.
Defined.

(** ** Skills that end in a symbol *)

Lemma last_char_cons c x : x <> "" -> last_char (String c x) = last_char x.
Proof. destruct x; [congruence | reflexivity]. Qed.

Lemma lit_match_before w : forall st st',
  w <> "" -> In st' (lit_match true w st) ->
  exists x, rest st = (x ++ rest st')%string /\ lower x = lower w
            /\ x <> "" /\ before st' = last_char x.
Proof.
  induction w as [|pc w IH]; intros st st' N; [congruence|]. cbn [lit_match].
  destruct st as [p [|c s] cs]; cbn [rest caps]; [intros []|].
  destruct (char_eq true pc c) eqn:E; [|intros []].
  unfold char_eq in E. apply Ascii.eqb_eq in E.
  destruct w as [|pc' w].
  - cbn [lit_match]. intros [<-|[]]. exists (String c ""). cbn [rest before].
    repeat split; [cbn; now rewrite E | discriminate].
  - intros H. apply IH in H as (x & E1 & E2 & Nx & B); [|discriminate].
    cbn [rest] in E1. exists (String c x). repeat split.
    + simpl. now rewrite E1.
    + cbn [lower]. now rewrite E, E2.
    + discriminate.
    + now rewrite last_char_cons.
Qed.

Lemma words_nonempty_match l st st' :
  Forall (fun w => w <> "") l ->
  In st' (matches true (words l) st) ->
  exists x, rest st = (x ++ rest st')%string /\ In (lower x) (map lower l)
            /\ before st' = last_char x.
Proof.
  intros F H. apply words_match in H as (w & I & H).
  rewrite Forall_forall in F.
  apply lit_match_before in H as (x & E1 & E2 & _ & B); [|auto].
  exists x. repeat split; auto. rewrite E2. now apply in_map.
Qed.

Lemma word_pattern_context l adv pos prev s m :
  Forall (fun w => w <> "") l ->
  match_at true (word_pattern l) adv pos prev s = Some m ->
  exists y, s = (m_text m ++ y)%string /\ boundary_after (m_text m) y = true.
Proof.
  intros F. unfold match_at. set (st := Cursor prev s []).
  assert (I : forall st', In st' (matches true (word_pattern l) st) ->
              exists y, s = (consumed s (rest st') ++ y)%string
                        /\ boundary_after (consumed s (rest st')) y = true).
  { intros st' H. unfold word_pattern in H. cbn [cat matches] in H.
    apply in_flat_map in H as (st1 & H1 & H).
    apply (word_boundary_same true) in H1. subst st1.
    apply in_flat_map in H as (st2 & H2 & H).
    apply (words_nonempty_match l _ _ F) in H2 as (x & E1 & _ & B).
    unfold st in E1. cbn [rest] in E1.
    cbn [matches] in H. unfold boundary_after.
    destruct (xorb (opt_word (before st2)) (opt_word (next_char (rest st2)))) eqn:X;
      [|destruct H].
    destruct H as [<-|[]]. exists (rest st2).
    rewrite E1, consumed_append. split; [reflexivity|]. now rewrite <- B. }
  assert (J : forall ends, incl ends (matches true (word_pattern l) st) ->
              match ends with
              | st' :: _ =>
                  Some (Match pos (consumed s (rest st')) (caps st')
                              (ngroups (word_pattern l)))
              | [] => None
              end = Some m ->
              exists y, s = (m_text m ++ y)%string
                        /\ boundary_after (m_text m) y = true).
  { intros [|st' ends] L H; [discriminate|]. injection H as <-. cbn [m_text].
    apply I, L. now left. }
  destruct adv; apply J.
  - intros x H. now apply filter_In in H.
  - apply incl_refl.
Qed.

(** Every match listed is a piece of the text, and what holds of each
    attempt and of what follows it holds of the match in the text. *)
Lemma finditer_from_context ic r (Q : match_obj -> string -> Prop) :
  (forall adv pos prev s m,
     match_at ic r adv pos prev s = Some m ->
     exists y, s = (m_text m ++ y)%string /\ Q m y) ->
  forall s busy pos prev m,
    In m (finditer_from ic r busy pos prev s) ->
    exists x y, s = (x ++ m_text m ++ y)%string /\ Q m y.
Proof.
  intros A.
  assert (Here : forall adv pos prev s m,
            match_at ic r adv pos prev s = Some m ->
            exists x y, s = (x ++ m_text m ++ y)%string /\ Q m y).
  { intros adv pos prev s0 m H. apply A in H as (y & E & q). now exists "", y. }
  assert (Next : forall c s m,
            (exists x y, s = (x ++ m_text m ++ y)%string /\ Q m y) ->
            exists x y, String c s = (x ++ m_text m ++ y)%string /\ Q m y).
  { intros c s0 m (x & y & E & q). exists (String c x), y. simpl. now rewrite <- E. }
  induction s as [|c s IH]; intros busy pos prev m; cbn [finditer_from].
  - destruct busy; [|intros []].
    destruct (match_at ic r false pos prev "") as [m0|] eqn:E; [|intros []].
    destruct (String.length (m_text m0)).
    + destruct (match_at ic r true pos prev "") as [m1|] eqn:E1.
      * intros [<-|[<-|[]]]; eauto.
      * intros [<-|[]]; eauto.
    + intros [<-|[]]; eauto.
  - destruct busy; [|intros H; apply Next; eapply IH, H].
    destruct (match_at ic r false pos prev (String c s)) as [m0|] eqn:E;
      [|intros H; apply Next; eapply IH, H].
    destruct (String.length (m_text m0)).
    + destruct (match_at ic r true pos prev (String c s)) as [m1|] eqn:E1.
      * intros [<-|[<-|H]]; [eauto | eauto | apply Next; eapply IH, H].
      * intros [<-|H]; [eauto | apply Next; eapply IH, H].
    + intros [<-|H]; [eauto | apply Next; eapply IH, H].
Qed.

Lemma lower_last_char x :
  last_char (lower x) = option_map lower_char (last_char x).
Proof.
  induction x as [|c x IH]; [reflexivity|].
  destruct x as [|d x]; [reflexivity|].
  change (lower (String c (String d x))) with (String (lower_char c) (lower (String d x))).
  rewrite last_char_cons; [|discriminate]. rewrite IH. reflexivity.
Qed.

Lemma lower_char_symbol c :
  isword (lower_char c) = false -> isword c = false.
Proof.
  destruct c as [b0 b1 b2 b3 b4 b5 b6 b7].
  destruct b0, b1, b2, b3, b4, b5, b6, b7; vm_compute; intros H;
    first [reflexivity | discriminate H].
Qed.

(** X14: a skill that ends in a character that is no word character, as
    "C++" and "C#" do, is returned only for an occurrence that a word
    character follows at once: at the end of the text, or before a space or
    a punctuation mark, it is not extracted. *)
Theorem extract_skills_symbol_boundary (order : set_order) (text skill : string) :
  In skill (extract_skills order text) ->
  opt_word (last_char (lower skill)) = false ->
  exists x c y, text = (x ++ skill ++ String c y)%string /\ isword c = true.
Proof.
  unfold extract_skills. intros H W.
  assert (S : In skill (skills_set text)).
  { revert H. apply Permutation_in, Permutation_sym.
    exact (enumerate_perm order (skills_set text)). }
  clear H. destruct (proj1 (skills_set_in text skill) S)
    as [(p & I & H)|(k & I & _ & E)].
  - rewrite (findall_groupless true p text (in_skill_patterns_groupless p I)) in H.
    apply in_map_iff in H as (m & <- & H).
    assert (C : exists x y, text = (x ++ m_text m ++ y)%string
                            /\ boundary_after (m_text m) y = true).
    { unfold skill_patterns in I.
      repeat (destruct I as [<-|I];
              [refine (finditer_from_context true (word_pattern _)
                         (fun m y => boundary_after (m_text m) y = true)
                         _ text 0 0 None m H);
               intros adv pos prev s m0; apply word_pattern_context;
               repeat constructor; discriminate|]).
      destruct I. }
    destruct C as (x & y & E & B). unfold boundary_after in B.
    rewrite lower_last_char in W.
    destruct (last_char (m_text m)) as [c|] eqn:L.
    + cbn [option_map opt_word] in W. apply lower_char_symbol in W.
      cbn [opt_word] in B. rewrite W in B. cbn [xorb] in B.
      destruct y as [|d y]; [discriminate B|]. cbn [next_char opt_word] in B.
      exists x, d, y. split; [exact E | exact B].
    + cbn [opt_word xorb] in B.
      destruct y as [|d y]; [discriminate B|]. cbn [next_char opt_word] in B.
      exists x, d, y. split; [exact E | exact B].
  - exfalso. subst skill.
    assert (F : forallb (fun k => opt_word (last_char (lower (title k)))) skill_keywords
                = true) by reflexivity.
    rewrite forallb_forall in F. rewrite (F k I) in W. discriminate.
Qed.

Lemma extract_skills_symbol_boundary_witness :
  exists x c y, "C++11 and Rust" = (x ++ "C++" ++ String c y)%string /\ isword c = true.
Proof.
  apply (extract_skills_symbol_boundary insertion_order "C++11 and Rust" "C++").
  - vm_compute. auto.
  - reflexivity.
Defined.
